(** * OTS validator node: ledger replay, Merkle commitment and vote machine

    A shallow embedding of [P2P.js] and [TransactionMerkle.js].

    Conventions of the embedding.
    - JavaScript numbers that hold amounts, balances, stakes, nonces and
      timestamps are integers in the safe range, embedded as [Z];
      [Math.floor] of an integer is the integer itself.
    - [undefined] is [None] of an [option]; a thrown exception is the
      [Thrown] completion and leaves the mutations done so far in place.
    - Public keys are hexadecimal strings, so no key of a JavaScript object
      is an array index and objects enumerate in insertion order.
    - Messages are well formed for their [type]: the [data] of each kind
      has the fields of the wire format.
    - The class [Transaction] and the [crypto], [elliptic] and [JSON]
      libraries are not embedded; what the node calls from them is
      gathered in the class [Primitives]. *)

From stdpp Require Import base option list gmap sets strings pretty sorting.
From Stdlib Require Import ZArith Lia.
From Stdlib Require OrderedTypeEx.

Local Open Scope Z_scope.

(** ** Data model *)

(** Modelled from the spec: the fields of a [Transaction] object, whose
    class is declared in [Transaction.js], outside the embedded sources.
    The data model names [from], [to], [amount], [nonce], [timestamp],
    [body] and [signature]; [data] is the further property that
    [createAccState] and the commit path compare with ["GENESIS"], absent
    ([None]) unless an object carries it. *)
Record Transaction := mkTransaction {
  tx_from : string;
  tx_to : string;
  tx_amount : Z;
  tx_nonce : Z;
  tx_timestamp : Z;
  tx_body : string;
  tx_signature : string;
  tx_data : option string
}.

(** One entry of the [reasons] array of [transactionValid]. [RError] is
    the caught exception object. *)
Inductive Reason :=
| RText (s : string)
| RError.

(** The [valid] field of a vote: a boolean, or the whole pair
    [[valid, reasons]] that the pending-queue branch puts on the wire. *)
Inductive JsValid :=
| VBool (b : bool)
| VArr (b : bool) (reasons : list Reason).

(** A committed record of [chain.transactions]:
    [{ transaction, validators, validatorsRoot }]. *)
Record HistoryRecord := mkRecord {
  r_transaction : Transaction;
  r_validators : list (string * option JsValid);
  r_validatorsRoot : string
}.

Record Account := mkAccount {
  balance : Z;
  stake : Z;
  nonce : Z
}.

(** The seven message kinds, and any other [type]. *)
Inductive MsgBody :=
| GET_CHAIN
| CHAIN (transactions : string) (root : string)
| VALIDATORS
| VALIDATOR (data : string)
| HELLO_VALIDATOR (data : string)
| NEW_TRANSACTION (data : string)
| TRANSACTION (tx : string) (valid : JsValid) (root : string)
| OTHER.

(** The signed envelope. *)
Record Message := mkMessage {
  m_body : MsgBody;
  m_for : option string;
  m_id : string;
  m_key : string;
  m_sign : string
}.

(** Completion of a piece of JavaScript code. *)
Inductive Completion (A : Type) :=
| Returns (a : A)
| Thrown.
Arguments Returns {A} a.
Arguments Thrown {A}.

(** The library functions the node relies on. The methods of
    [Transaction] return for every transaction; [deserialize] may throw. *)
Class Primitives := {
  (** [crypto.createHash('sha256').update(data).digest('hex')] *)
  sha256 : string → string;
  (** [transaction.verify()] *)
  tx_verify : Transaction → bool;
  (** [transaction.hash(false).toString('hex')] *)
  tx_hash : Transaction → string;
  (** [transaction.serialize()] *)
  serialize : Transaction → string;
  (** [Transaction.deserialize(s)]; [None] when it throws *)
  deserialize : string → option Transaction;
  (** [ec.keyFromPublic(key,'hex').verify(hash(JSON.stringify(nosign)), sign)];
      [false] also when it throws *)
  verifyEnvelope : Message → bool;
  (** [JSON.parse] of a serialized record list; [None] when it throws *)
  parseTransactions : string → option (list HistoryRecord);
  (** the relational comparison [str < n] of a string with a number *)
  js_lt_number : string → nat → bool
}.

(** ** TransactionMerkle.js *)

Record TransactionMerkle := mkMerkle {
  leaves : list string;
  levels : list (list string)
}.

(** [constructor()] *)
Definition newMerkle : TransactionMerkle :=
  {| leaves := []; levels := [[]] |}.

(** What [add] may be given: a transaction object, or a string which it
    deserializes first. *)
Inductive AddArg :=
| ATx (t : Transaction)
| ASerialized (s : string).

(** [nodes.slice(0, -2)] *)
Definition slice_0_m2 (nodes : list string) : list string :=
  firstn (length nodes - 2)%nat nodes.

(** [nodes[i]] where the code knows the index to be in range *)
Definition at_index (nodes : list string) (i : nat) : string :=
  nth i nodes "".

Section Merkle.
Context `{Primitives}.

Definition leafHash_of (a : AddArg) : option string :=
  match a with
  | ATx t => Some (tx_hash t)
  | ASerialized s => tx_hash <$> deserialize s
  end.

(** The [while] loop of [add]. [nodes] is the level that was just pushed
    to and [upper] the levels above it. A level created by the loop
    receives one node, so the loop ends there. *)
Fixpoint promote (nodes : list string) (upper : list (list string))
  : list (list string) :=
  if Nat.even (length nodes) && (0 <? length nodes)%nat then
    let h := sha256 (at_index nodes (length nodes - 2)
                     +:+ at_index nodes (length nodes - 1)) in
    match upper with
    | [] => [slice_0_m2 nodes; [h]]
    | u :: upper' => slice_0_m2 nodes :: promote (u ++ [h]) upper'
    end
  else nodes :: upper.

(** [add(transaction)]. An exception (from [deserialize], or from pushing
    to a missing level 0) is caught inside [add]. *)
Definition add (t : TransactionMerkle) (a : AddArg) : TransactionMerkle :=
  match leafHash_of a with
  | None => t
  | Some leafHash =>
      match levels t with
      | [] => {| leaves := leaves t ++ [leafHash]; levels := [] |}
      | l0 :: upper =>
          {| leaves := leaves t ++ [leafHash];
             levels := promote (l0 ++ [leafHash]) upper |}
      end
  end.

(** The argument of [hash] in the [for] loop of [getRoot]:
    [nodes[i] + i + 1 < nodes.length ? nodes[i + 1] : nodes[i]],
    where [+] binds tighter than [<] and [<] tighter than [?:]. *)
Definition pair_arg (nodes : list string) (i : nat) : option string :=
  if js_lt_number (at_index nodes i +:+ pretty i +:+ "1") (length nodes)
  then nodes !! (i + 1)%nat
  else nodes !! i.

(** [hash(data)] of [TransactionMerkle.js] calls [data.toString()], which
    throws on [undefined]. *)
Definition hash_arg (a : option string) : option string :=
  sha256 <$> a.

(** The [for] loop: [i = 0, 2, 4, ...] while [i < nodes.length]. *)
Definition next_level (nodes : list string) : option (list string) :=
  mapM (λ j, hash_arg (pair_arg nodes (2 * j)%nat))
       (seq 0 (Nat.div2 (S (length nodes)))).

(** The [while (nodes.length > 1)] loop. *)
Fixpoint reduce (fuel : nat) (nodes : list string)
  : Completion (list string) :=
  if (1 <? length nodes)%nat then
    match fuel with
    | O => Returns nodes
    | S fuel' =>
        match next_level nodes with
        | None => Thrown
        | Some next => reduce fuel' next
        end
    end
  else Returns nodes.

(** [getRoot()]. The loop halves [nodes], so its length is fuel enough.
    Spreading [this.levels[this.levels.length - 1]] throws when there is
    no level; [nodes[0]] is [undefined] when the top level is empty. *)
Definition getRoot (t : TransactionMerkle) : Completion (option string) :=
  if (length (leaves t) =? 0)%nat then Returns (Some (sha256 "0"))
  else
    match last (levels t) with
    | None => Thrown
    | Some top =>
        match reduce (length top) top with
        | Thrown => Thrown
        | Returns nodes => Returns (head nodes)
        end
    end.

(** [size()] *)
Definition merkle_size (t : TransactionMerkle) : nat := length (leaves t).

(** [getLeaves()]: a copy of [leaves] *)
Definition getLeaves (t : TransactionMerkle) : list string := leaves t.

(** The tree after adding a sequence of transactions. *)
Definition build (args : list AddArg) : TransactionMerkle :=
  foldl add newMerkle args.

(** *** The rule of the specification *)




End Merkle.

(** ** P2P.js: constants and JavaScript helpers *)

Definition minStake : Z := 1000000000.
Definition fee : Z := 100.
Definition fine : Z := 10000.
Definition timestampRange : Z := 60.
Definition maxVoteTime : Z := 10000.

(** [array.join(sep)] on strings *)
Fixpoint join (sep : string) (l : list string) : string :=
  match l with
  | [] => ""
  | [x] => x
  | x :: rest => x +:+ sep +:+ join sep rest
  end.

(** [array.sort()] with the default comparator on strings (code units;
    keys and vote values are ASCII). *)
Fixpoint sort_insert (x : string) (l : list string) : list string :=
  match l with
  | [] => [x]
  | y :: rest => if String.ltb x y then x :: y :: rest
                 else y :: sort_insert x rest
  end.

Definition sort_strings (l : list string) : list string :=
  foldl (λ acc x, sort_insert x acc) [] l.

Definition bool_str (b : bool) : string := if b then "true" else "false".

(** String conversion of a reason as a record holds it, that is after the
    JSON round trip of the wire, where an exception object has become
    [{}]. *)
Definition reason_str (r : Reason) : string :=
  match r with
  | RText s => s
  | RError => "[object Object]"
  end.

(** String conversion of a vote value: a boolean, or an array, whose
    conversion joins its elements with a comma. *)
Definition valid_str (v : JsValid) : string :=
  match v with
  | VBool b => bool_str b
  | VArr b rs => bool_str b +:+ "," +:+ join "," (reason_str <$> rs)
  end.

(** [Object.values(validators).sort().join(':')]: the default sort orders
    by string conversion and moves [undefined] to the end; [join] prints
    [undefined] as the empty string. *)
Definition sorted_values (vals : list (option JsValid)) : string :=
  join ":" (sort_strings (valid_str <$> omap id vals)
            ++ ((λ _, "") <$> filter (λ v, v = None) vals)).

(** [valid == false] *)
Definition loose_eq_false (v : option JsValid) : bool :=
  match v with
  | Some (VBool false) => true
  | _ => false
  end.

(** [valid != true] *)
Definition loose_ne_true (v : option JsValid) : bool :=
  match v with
  | Some (VBool true) => false
  | _ => true
  end.

(** [v === true] and [v === false] *)
Definition strict_true (v : option JsValid) : bool :=
  match v with
  | Some (VBool true) => true
  | _ => false
  end.

Definition strict_false (v : option JsValid) : bool :=
  match v with
  | Some (VBool false) => true
  | _ => false
  end.

(** A JavaScript object used as an insertion-ordered map:
    [obj[k] = v] overwrites in place or appends. *)
Fixpoint obj_set {A : Type} (k : string) (v : A) (o : list (string * A))
  : list (string * A) :=
  match o with
  | [] => [(k, v)]
  | (k', v') :: rest =>
      if String.eqb k k' then (k, v) :: rest
      else (k', v') :: obj_set k v rest
  end.

Fixpoint obj_get {A : Type} (k : string) (o : list (string * A)) : option A :=
  match o with
  | [] => None
  | (k', v') :: rest => if String.eqb k k' then Some v' else obj_get k rest
  end.

(** ** P2P.js: the node *)

(** A value stored in [this.consensus]: the [data] of a CHAIN message, the
    [data] of a TRANSACTION message, or the node's own vote of the tally. *)
Inductive Entry :=
| EChain (transactions : string) (root : string)
| EVote (tx : string) (valid : JsValid) (root : string)
| ESelf (tx : Transaction) (valid : bool).

Definition entry_root (e : Entry) : option string :=
  match e with
  | EChain _ r => Some r
  | EVote _ _ r => Some r
  | ESelf _ _ => None
  end.

Definition entry_valid (e : Entry) : option JsValid :=
  match e with
  | EChain _ _ => None
  | EVote _ v _ => Some v
  | ESelf _ b => Some (VBool b)
  end.

Definition entry_transactions (e : Entry) : option string :=
  match e with
  | EChain t _ => Some t
  | _ => None
  end.

(** A WebSocket: identity, whether [readyState] is [OPEN], and the [key]
    property the handler binds. *)
Record Socket := mkSocket {
  s_id : nat;
  s_open : bool;
  s_key : option string
}.

(** A payload handed to [send], before [id], [key] and [sign] are set. *)
Inductive Payload :=
| SendGetChain
| SendChain (transactions : list HistoryRecord) (root : option string)
            (for_ : string)
| SendValidators
| SendValidator (data : string)
| SendHelloValidator (data : string)
| SendNewTransaction (data : string)
| SendTransaction (tx : string) (valid : JsValid) (root : option string).

(** A timer of the runtime that has not fired yet, with the
    [lastValidators] its callback closes over. *)
Record Timer := mkTimer {
  timer_id : nat;
  lastValidators : gset string
}.

(** The fields of the [P2P] instance, then what the runtime holds for it:
    the pending timers, the sends (payload and the sockets written to),
    and the forwarded messages. *)
Record State := mkState {
  chain_transactions : list HistoryRecord;
  chain_accounts : gmap string Account;
  sockets : list Socket;
  validators : gset string;
  buf : list string;
  consensus : list (string * Entry);
  vote : option Transaction;
  publicKey : string;
  transactionMerkle : TransactionMerkle;
  pendingTxs : list Transaction;
  wantChain : bool;
  voteTimeout : option nat;
  timers : list Timer;
  nextTimer : nat;
  sent : list (Payload * list nat);
  forwarded : list (nat * Message)
}.

Definition set_chain_transactions (x : list HistoryRecord) (s : State) :=
  mkState x (chain_accounts s) (sockets s) (validators s) (buf s)
    (consensus s) (vote s) (publicKey s) (transactionMerkle s) (pendingTxs s)
    (wantChain s) (voteTimeout s) (timers s) (nextTimer s) (sent s)
    (forwarded s).
Definition set_chain_accounts (x : gmap string Account) (s : State) :=
  mkState (chain_transactions s) x (sockets s) (validators s) (buf s)
    (consensus s) (vote s) (publicKey s) (transactionMerkle s) (pendingTxs s)
    (wantChain s) (voteTimeout s) (timers s) (nextTimer s) (sent s)
    (forwarded s).
Definition set_sockets (x : list Socket) (s : State) :=
  mkState (chain_transactions s) (chain_accounts s) x (validators s) (buf s)
    (consensus s) (vote s) (publicKey s) (transactionMerkle s) (pendingTxs s)
    (wantChain s) (voteTimeout s) (timers s) (nextTimer s) (sent s)
    (forwarded s).
Definition set_validators (x : gset string) (s : State) :=
  mkState (chain_transactions s) (chain_accounts s) (sockets s) x (buf s)
    (consensus s) (vote s) (publicKey s) (transactionMerkle s) (pendingTxs s)
    (wantChain s) (voteTimeout s) (timers s) (nextTimer s) (sent s)
    (forwarded s).
Definition set_buf (x : list string) (s : State) :=
  mkState (chain_transactions s) (chain_accounts s) (sockets s) (validators s)
    x (consensus s) (vote s) (publicKey s) (transactionMerkle s)
    (pendingTxs s) (wantChain s) (voteTimeout s) (timers s) (nextTimer s)
    (sent s) (forwarded s).
Definition set_consensus (x : list (string * Entry)) (s : State) :=
  mkState (chain_transactions s) (chain_accounts s) (sockets s) (validators s)
    (buf s) x (vote s) (publicKey s) (transactionMerkle s) (pendingTxs s)
    (wantChain s) (voteTimeout s) (timers s) (nextTimer s) (sent s)
    (forwarded s).
Definition set_vote (x : option Transaction) (s : State) :=
  mkState (chain_transactions s) (chain_accounts s) (sockets s) (validators s)
    (buf s) (consensus s) x (publicKey s) (transactionMerkle s) (pendingTxs s)
    (wantChain s) (voteTimeout s) (timers s) (nextTimer s) (sent s)
    (forwarded s).
Definition set_transactionMerkle (x : TransactionMerkle) (s : State) :=
  mkState (chain_transactions s) (chain_accounts s) (sockets s) (validators s)
    (buf s) (consensus s) (vote s) (publicKey s) x (pendingTxs s)
    (wantChain s) (voteTimeout s) (timers s) (nextTimer s) (sent s)
    (forwarded s).
Definition set_pendingTxs (x : list Transaction) (s : State) :=
  mkState (chain_transactions s) (chain_accounts s) (sockets s) (validators s)
    (buf s) (consensus s) (vote s) (publicKey s) (transactionMerkle s) x
    (wantChain s) (voteTimeout s) (timers s) (nextTimer s) (sent s)
    (forwarded s).
Definition set_wantChain (x : bool) (s : State) :=
  mkState (chain_transactions s) (chain_accounts s) (sockets s) (validators s)
    (buf s) (consensus s) (vote s) (publicKey s) (transactionMerkle s)
    (pendingTxs s) x (voteTimeout s) (timers s) (nextTimer s) (sent s)
    (forwarded s).
Definition set_timer_state (h : option nat) (ts : list Timer) (n : nat)
    (s : State) :=
  mkState (chain_transactions s) (chain_accounts s) (sockets s) (validators s)
    (buf s) (consensus s) (vote s) (publicKey s) (transactionMerkle s)
    (pendingTxs s) (wantChain s) h ts n (sent s) (forwarded s).
Definition set_sent (x : list (Payload * list nat)) (s : State) :=
  mkState (chain_transactions s) (chain_accounts s) (sockets s) (validators s)
    (buf s) (consensus s) (vote s) (publicKey s) (transactionMerkle s)
    (pendingTxs s) (wantChain s) (voteTimeout s) (timers s) (nextTimer s) x
    (forwarded s).
Definition set_forwarded (x : list (nat * Message)) (s : State) :=
  mkState (chain_transactions s) (chain_accounts s) (sockets s) (validators s)
    (buf s) (consensus s) (vote s) (publicKey s) (transactionMerkle s)
    (pendingTxs s) (wantChain s) (voteTimeout s) (timers s) (nextTimer s)
    (sent s) x.

(** [new P2P(chain, port, peers, privateKey)] *)
Definition newP2P (txs : list HistoryRecord) (accs : gmap string Account)
    (pk : string) : State :=
  {| chain_transactions := txs; chain_accounts := accs; sockets := [];
     validators := ∅; buf := []; consensus := []; vote := None;
     publicKey := pk; transactionMerkle := newMerkle; pendingTxs := [];
     wantChain := false; voteTimeout := None; timers := []; nextTimer := O;
     sent := []; forwarded := [] |}.

(** *** Code that mutates the node and may throw *)

Definition M (A : Type) : Type := State → State * Completion A.

#[export] Instance M_ret : MRet M := λ A a s, (s, Returns a).
#[export] Instance M_bind : MBind M := λ A B f m s,
  match m s with
  | (s', Returns a) => f a s'
  | (s', Thrown) => (s', Thrown)
  end.

Definition get_state : M State := λ s, (s, Returns s).
Definition modify (f : State → State) : M unit := λ s, (f s, Returns tt).
Definition throw {A : Type} : M A := λ s, (s, Thrown).

(** [try { body } catch (err) { console.log(...) }] *)
Definition try_catch (body : M unit) (s : State) : State := (body s).1.

(** [this.chain.accounts[k] = (this.chain.accounts[k] || {balance: 0, stake: 0, nonce: 0})] *)
Definition ensure_account (k : string) : M unit :=
  modify (λ s, match chain_accounts s !! k with
               | Some _ => s
               | None => set_chain_accounts
                           (<[k := mkAccount 0 0 0]> (chain_accounts s)) s
               end).

(** [this.chain.accounts[k].field op= ...]: a [TypeError] when the account
    is [undefined]. *)
Definition update_account (k : string) (f : Account → Account) : M unit :=
  λ s, match chain_accounts s !! k with
       | Some a => (set_chain_accounts (<[k := f a]> (chain_accounts s)) s,
                    Returns tt)
       | None => (s, Thrown)
       end.

Definition add_balance (d : Z) (a : Account) : Account :=
  mkAccount (balance a + d) (stake a) (nonce a).
Definition add_stake (d : Z) (a : Account) : Account :=
  mkAccount (balance a) (stake a + d) (nonce a).
Definition incr_nonce (a : Account) : Account :=
  mkAccount (balance a) (stake a) (nonce a + 1).

(** [tx.data == "GENESIS"] *)
Definition data_is_genesis (t : Transaction) : bool :=
  match tx_data t with
  | Some d => String.eqb d "GENESIS"
  | None => false
  end.

Section P2P.
Context `{Primitives}.

(** [hash(Object.keys(v).sort().join(':') + ":" + Object.values(v).sort().join(':'))] *)
Definition hash_validators (v : list (string * option JsValid)) : string :=
  sha256 (join ":" (sort_strings v.*1) +:+ ":" +:+ sorted_values v.*2).

(** [merkle()] *)
Definition merkle : M (option string) :=
  λ s, match getRoot (transactionMerkle s) with
       | Returns r => (s, Returns r)
       | Thrown => (s, Thrown)
       end.

(** [this.transactionMerkle.add(transaction.serialize())] *)
Definition merkle_add (t : Transaction) : M unit :=
  modify (λ s, set_transactionMerkle
                 (add (transactionMerkle s) (ASerialized (serialize t))) s).

(** [send(payload)]: the payload is written to every socket that is
    [OPEN]. *)
Definition send (p : Payload) : M unit :=
  modify (λ s, set_sent
                 (sent s ++ [(p, s_id <$> filter (λ k, s_open k = true)
                                                (sockets s))]) s).

(** [transactionValid(transaction, now)], with [nowSec] the value of
    [Math.floor(Date.now() / 1000)]. The test of the nonce for the
    reasons (the last [if] before the genesis override) reads
    [accounts[from].nonce] unguarded: when [now] holds and the account is
    missing it throws, and the [catch] returns [[false, [err]]]. *)
Definition transactionValid (s : State) (t : Transaction) (now : bool)
    (nowSec : Z) : bool * list Reason :=
  let acc := chain_accounts s !! tx_from t in
  let future := nowSec + timestampRange <? tx_timestamp t in
  let expired :=
    now && (tx_timestamp t <?
            timestampRange
            + Z.of_nat (length (pendingTxs s)) * (maxVoteTime / 1000)) in
  let low := tx_amount t <? fee in
  let nofrom := match acc with None => true | Some _ => false end in
  let poor := match acc with
              | Some a => balance a <? tx_amount t
              | None => false
              end in
  let badnonce := now && match acc with
                         | Some a => negb (tx_nonce t =? nonce a)
                         | None => false
                         end in
  match acc, now with
  | None, true => (false, [RError])
  | _, _ =>
      let valid :=
        if future || expired || low || nofrom || poor || badnonce
        then false else tx_verify t in
      let reasons :=
        (if future then [RText "Transaction from future"] else [])
        ++ (if expired then [RText "Timestamp has expired"] else [])
        ++ (if low then [RText "Amount is lower than fee"] else [])
        ++ (match acc with
            | None => [RText "Invalid from"]
            | Some a =>
                if balance a <? tx_amount t
                then [RText ("Balance lower than amount ("
                             +:+ pretty (balance a) +:+ " < "
                             +:+ pretty (tx_amount t) +:+ ")")]
                else []
            end)
        ++ (if badnonce then [RText "Invalid nonce"] else []) in
      if (length (chain_transactions s) <? 6)%nat
         && String.eqb (tx_body t) "GENESIS"
      then (true, [])
      else (valid, reasons)
  end.

(** *** createAccState *)

(** The validity gate of one record: [transactionValid(transaction, false)]
    overridden inside the genesis window. *)
Definition replay_gate (s : State) (nowSec : Z) (i : nat) (t : Transaction)
  : bool :=
  if (i <? 6)%nat && String.eqb (tx_body t) "GENESIS" then true
  else (transactionValid s t false nowSec).1.

(** The debit of [from], skipped for [from == "GENESIS"] with [i < 6]. *)
Definition replay_debit (i : nat) (t : Transaction) : M unit :=
  if negb (String.eqb (tx_from t) "GENESIS" && (i <? 6)%nat) then
    ensure_account (tx_from t);;
    update_account (tx_from t) (add_balance (- tx_amount t))
  else mret tt.

(** The credit of [to], or of the stake of [from]. *)
Definition replay_credit (t : Transaction) : M unit :=
  if negb (String.eqb (tx_to t) "stake") then
    ensure_account (tx_to t);;
    update_account (tx_to t) (add_balance (tx_amount t - fee))
  else update_account (tx_from t) (add_stake (tx_amount t - fee)).

(** The loop over [Object.entries(transactionData.validators)]; [n] is
    [Object.keys(transactionData.validators).length]. *)
Fixpoint replay_rewards (n : nat) (entries : list (string * option JsValid))
  : M unit :=
  match entries with
  | [] => mret tt
  | (validator, valid) :: rest =>
      (if loose_eq_false valid
       then update_account validator (add_stake (- fine))
       else update_account validator (add_balance (fee / Z.of_nat n + 1)));;
      replay_rewards n rest
  end.

(** The body of the [for] loop for one record. The result tells whether
    the record was applied, in which case [i] is incremented. *)
Definition replay_record (nowSec : Z) (i : nat) (r : HistoryRecord)
  : M bool :=
  let t := r_transaction r in
  s ← get_state;
  if negb (replay_gate s nowSec i t) then mret false
  else
    replay_debit i t;;
    replay_credit t;;
    (if negb (data_is_genesis t && (i <? 6)%nat)
        && String.eqb (r_validatorsRoot r) (hash_validators (r_validators r))
     then
       replay_rewards (length (r_validators r)) (r_validators r);;
       update_account (tx_from t) incr_nonce
     else mret tt);;
    merkle_add t;;
    mret true.

(** The [for] loop; [clock k] is the clock read while the [k]-th record
    of the list is examined, and the result is the counter [i] at the
    end. *)
Fixpoint createAccState_from (clock : nat → Z) (k i : nat)
    (transactions : list HistoryRecord) : M nat :=
  match transactions with
  | [] => mret i
  | r :: rest =>
      applied ← replay_record (clock k) i r;
      createAccState_from clock (S k) (if applied : bool then S i else i) rest
  end.

(** [createAccState(transactions)] *)
Definition createAccState (clock : nat → Z)
    (transactions : list HistoryRecord) : M unit :=
  createAccState_from clock 0 0 transactions;; mret tt.

(** The loop of [start] that only fills the Merkle tree. *)
Fixpoint start_merkle_from (i : nat) (transactions : list HistoryRecord)
  : M unit :=
  match transactions with
  | [] => mret tt
  | r :: rest =>
      let t := r_transaction r in
      if (if (i <? 6)%nat && String.eqb (tx_body t) "GENESIS" then true
          else tx_verify t)
      then merkle_add t;; start_merkle_from (S i) rest
      else start_merkle_from i rest
  end.

(** *** The vote timeout *)

(** [getVoteTimeout()]: [setTimeout] registers a new timer, and the handle
    is stored in [this.voteTimeout]. *)
Definition getVoteTimeout : M unit :=
  modify (λ s, set_timer_state (Some (nextTimer s))
                 (timers s ++ [mkTimer (nextTimer s) (validators s)])
                 (S (nextTimer s)) s).

(** [if (this.voteTimeout) this.voteTimeout.close()]: [close] of a Node.js
    [Timeout] cancels that timer. *)
Definition close_voteTimeout : M unit :=
  modify (λ s, match voteTimeout s with
               | Some h => set_timer_state (voteTimeout s)
                             (filter (λ tm, timer_id tm ≠ h) (timers s))
                             (nextTimer s) s
               | None => s
               end).

(** *** msgHandler: the gossip layer *)

(** The guard that drops a message: a missing field, an [id] seen
    recently, or a signature that does not verify. *)
Definition envelope_rejected (s : State) (m : Message) : bool :=
  String.eqb (m_key m) "" || String.eqb (m_sign m) ""
  || String.eqb (m_id m) "" || bool_decide (m_id m ∈ buf s)
  || negb (verifyEnvelope m).

(** [this.buf.push(message.id); if (this.buf.length > 10) this.buf.shift()] *)
Definition remember_id (id : string) (b : list string) : list string :=
  let b' := b ++ [id] in
  if (10 <? length b')%nat then tail b' else b'.

(** The message is written to every other open socket, and the socket it
    came from gets [key = message.key]. *)
Definition gossip (sock : nat) (m : Message) (s : State) : State :=
  let s1 := set_buf (remember_id (m_id m) (buf s)) s in
  let targets :=
    filter (λ k, s_open k = true ∧ s_id k ≠ sock) (sockets s1) in
  let s2 :=
    set_forwarded (forwarded s1 ++ ((λ k, (s_id k, m)) <$> targets)) s1 in
  set_sockets
    ((λ k, if decide (s_id k = sock)
           then mkSocket (s_id k) (s_open k) (Some (m_key m)) else k)
       <$> sockets s2) s2.

(** The constant the source names [isValidator]; it holds when the sender
    is NOT a staked validator. *)
Definition isValidator (s : State) (m : Message) : bool :=
  match chain_accounts s !! m_key m with
  | None => true
  | Some a => stake a <? minStake
  end.

(** *** msgHandler: chain sync *)

(** [rootCount.get(r) || 0] *)
Definition root_count (rc : gmap (option string) nat) (r : option string)
  : nat :=
  default O (rc !! r).

(** One call of the [forEach] callback over [Object.values(this.consensus)]. *)
Definition tally_root (acc : gmap (option string) nat * option string)
    (e : Entry) : gmap (option string) nat * option string :=
  let root := entry_root e in
  let count := S (root_count acc.1 root) in
  let rc := <[root := count]> acc.1 in
  (rc, if (root_count rc acc.2 <? count)%nat then root else acc.2).

(** [maxRoot] after the [forEach]; it starts as the empty string. *)
Definition maxRoot_of (entries : list Entry) : option string :=
  (foldl tally_root (∅, Some "") entries).2.

(** [JSON.parse(Object.values(this.consensus).find(item => item.root === maxRoot)?.transactions)];
    [None] when [JSON.parse] throws, as it does on [undefined]. *)
Definition plurality_transactions (entries : list Entry)
  : option (list HistoryRecord) :=
  e ← list_find (λ e, entry_root e = maxRoot_of entries) entries;
  txs ← entry_transactions e.2;
  parseTransactions txs.

(** The response is stored under the key of its sender:
    [if (!this.consensus[message.key] && message.data.root && Object.keys(message.data.transactions).length >= Object.keys(this.chain).length) this.consensus[message.key] = message.data].
    [Object.keys] of the serialized list counts its characters, and
    [this.chain] has the two keys [transactions] and [accounts]. *)
Definition collect_response (m : Message) (transactions root : string)
  : M unit :=
  modify (λ s, if bool_decide (obj_get (m_key m) (consensus s) = None)
                  && negb (String.eqb root "")
                  && (2 <=? String.length transactions)%nat
               then set_consensus
                      (obj_set (m_key m) (EChain transactions root)
                               (consensus s)) s
               else s).

(** [if (Object.values(this.consensus).length >= this.validators.size - 1) { ... }] *)
Definition adopt_plurality (clock : nat → Z) : M unit :=
  s ← get_state;
  if Z.of_nat (size (validators s)) - 1 <=? Z.of_nat (length (consensus s))
  then
    match plurality_transactions (consensus s).*2 with
    | None => throw
    | Some txs =>
        if (length (chain_transactions s) <=? length txs)%nat then
          modify (λ s, set_chain_transactions txs
                         (set_wantChain false (set_chain_accounts ∅ s)));;
          if (length txs =? 0)%nat then mret tt
          else createAccState clock txs
        else mret tt
    end
  else mret tt.

(** [case "CHAIN"] *)
Definition handle_CHAIN (clock : nat → Z) (m : Message)
    (transactions root : string) : M unit :=
  s ← get_state;
  if negb (bool_decide (m_for m = Some (publicKey s))) || negb (wantChain s)
  then mret tt
  else
    collect_response m transactions root;;
    adopt_plurality clock.

(** *** msgHandler: the vote machine *)

(** The loop over [validators] in the accept path; [n] is
    [validators.length] after the node's own key was pushed. *)
Fixpoint commit_rewards (n : nat) (vs : list string) : M unit :=
  match vs with
  | [] => mret tt
  | validator :: rest =>
      s ← get_state;
      (match chain_accounts s !! validator with
       | None => mret tt
       | Some _ =>
           match obj_get validator (consensus s) with
           | None => throw
           | Some e =>
               if loose_ne_true (entry_valid e)
               then update_account validator (add_stake (- fine))
               else update_account validator
                      (add_balance (fee / Z.of_nat n + 1))
           end
       end);;
      commit_rewards n rest
  end.

(** The accept path: [if (result) { ... }], where [keys] is
    [Object.keys(this.consensus)] read before the node's own vote was
    stored. *)
Definition commit (t : Transaction) (keys : list string) : M unit :=
  s ← get_state;
  let window := (length (chain_transactions s) <? 6)%nat in
  (if negb (String.eqb (tx_from t) "GENESIS" && window)
   then update_account (tx_from t) (add_balance (- tx_amount t))
   else mret tt);;
  ensure_account (tx_from t);;
  (if negb (String.eqb (tx_to t) "stake") then
     ensure_account (tx_to t);;
     update_account (tx_to t) (add_balance (tx_amount t - fee))
   else update_account (tx_from t) (add_stake (tx_amount t - fee)));;
  (if negb (data_is_genesis t && window) then
     commit_rewards (length (keys ++ [publicKey s])) (keys ++ [publicKey s]);;
     update_account (tx_from t) incr_nonce
   else mret tt);;
  s ← get_state;
  let validatorsVotes := (λ kv, (kv.1, entry_valid kv.2)) <$> consensus s in
  modify (set_chain_transactions
            (chain_transactions s
             ++ [mkRecord t validatorsVotes (hash_validators validatorsVotes)]));;
  merkle_add t.

(** What follows the [if (result)]: the slot is closed and the head of
    the pending queue, if any, opens the next one. The [valid] of that
    message is the whole result of [transactionValid]. *)
Definition closeout (clock : nat → Z) : M unit :=
  modify (set_vote None);;
  close_voteTimeout;;
  s ← get_state;
  match pendingTxs s with
  | [] => mret tt
  | tx :: rest =>
      modify (set_pendingTxs rest);;
      s ← get_state;
      let valid := transactionValid s tx true (clock 1%nat) in
      root ← merkle;
      send (SendTransaction (serialize tx) (VArr valid.1 valid.2) root);;
      modify (set_vote (Some tx));;
      modify (set_consensus [])
  end.

(** [votes.filter(v => v === true).length > votes.filter(v => v === false).length] *)
Definition majority (votes : list (option JsValid)) : bool :=
  (length (filter (λ v, strict_false v = true) votes)
   <? length (filter (λ v, strict_true v = true) votes))%nat.

(** The tally: [if (validators.length >= this.validators.size) { ... }] *)
Definition tally (clock : nat → Z) (t : Transaction) (keys : list string)
  : M unit :=
  s ← get_state;
  let own := (transactionValid s t false (clock 0%nat)).1 in
  modify (set_consensus (obj_set (publicKey s) (ESelf t own) (consensus s)));;
  s ← get_state;
  (if majority (entry_valid <$> (consensus s).*2)
   then commit t keys else mret tt);;
  closeout clock.

(** [case "TRANSACTION"] up to the tally: the vote of the sender is
    stored when its root is the local one, the sender is staked and its
    transaction is the candidate. The result is the candidate with
    [Object.keys(this.consensus)] when
    [validators.length >= this.validators.size], that is when the tally is
    to run. *)
Definition count_vote (m : Message) (tx : string) (valid : JsValid)
    (root : string) : M (option (Transaction * list string)) :=
  s ← get_state;
  match vote s with
  | None => mret None
  | Some v =>
      if String.eqb root "" then mret None
      else
        r ← merkle;
        if negb (bool_decide (r = Some root)) || isValidator s m
        then mret None
        else
          (match obj_get (m_key m) (consensus s) with
           | Some _ => mret tt
           | None =>
               match deserialize tx with
               | None => throw
               | Some t' =>
                   if String.eqb (tx_hash v) (tx_hash t')
                   then modify (λ s, set_consensus
                                       (obj_set (m_key m) (EVote tx valid root)
                                                (consensus s)) s)
                   else mret tt
               end
           end);;
          s ← get_state;
          if (size (validators s) <=? length (consensus s))%nat
          then mret (Some (v, (consensus s).*1))
          else mret None
  end.

(** [case "TRANSACTION"] *)
Definition handle_TRANSACTION (clock : nat → Z) (m : Message)
    (tx : string) (valid : JsValid) (root : string) : M unit :=
  r ← count_vote m tx valid root;
  match r with
  | Some (v, keys) => tally clock v keys
  | None => mret tt
  end.

(** [case "NEW_TRANSACTION"] *)
Definition handle_NEW_TRANSACTION (clock : nat → Z) (data : string)
  : M unit :=
  match deserialize data with
  | None => throw
  | Some t =>
      s ← get_state;
      match vote s with
      | Some _ => modify (λ s, set_pendingTxs (pendingTxs s ++ [t]) s)
      | None =>
          let valid := (transactionValid s t true (clock 0%nat)).1 in
          root ← merkle;
          send (SendTransaction (serialize t) (VBool valid) root);;
          modify (set_vote (Some t));;
          modify (set_consensus []);;
          getVoteTimeout
      end
  end.

(** [if (message.data !== this.publicKey) this.validators.add(message.data)] *)
Definition add_validator (data : string) : M unit :=
  modify (λ s, if bool_decide (data ≠ publicKey s)
               then set_validators ({[data]} ∪ validators s) s
               else s).

(** The [switch (message.type)] *)
Definition dispatch (clock : nat → Z) (m : Message) : M unit :=
  s ← get_state;
  match m_body m with
  | GET_CHAIN =>
      root ← merkle;
      send (SendChain (chain_transactions s) root (m_key m))
  | CHAIN transactions root => handle_CHAIN clock m transactions root
  | VALIDATORS =>
      if isValidator s m then mret tt
      else modify (set_validators ∅);;
           send (SendValidator (publicKey s))
  | VALIDATOR data =>
      if isValidator s m then mret tt
      else add_validator data;;
           send (SendHelloValidator (publicKey s))
  | HELLO_VALIDATOR data =>
      if isValidator s m then mret tt
      else add_validator data
  | NEW_TRANSACTION data => handle_NEW_TRANSACTION clock data
  | TRANSACTION tx valid root => handle_TRANSACTION clock m tx valid root
  | OTHER => mret tt
  end.

(** The listener that [msgHandler(socket)] registers, run on one message
    of socket [sock]. *)
Definition msgHandler (clock : nat → Z) (sock : nat) (m : Message)
    (s : State) : State :=
  if envelope_rejected s m then s
  else try_catch (dispatch clock m) (gossip sock m s).

(** *** The other entry points *)

(** [sendTransaction(transaction)] *)
Definition sendTransaction (t : Transaction) : M unit :=
  s ← get_state;
  (match vote s with
   | Some _ => modify (λ s, set_pendingTxs (pendingTxs s ++ [t]) s)
   | None =>
       modify (set_vote (Some t));;
       modify (set_consensus []);;
       getVoteTimeout
   end);;
  send (SendNewTransaction (serialize t)).

(** [connectSocket(socket)] for a socket that has just opened *)
Definition connectSocket (sock : nat) : M unit :=
  modify (λ s, set_sockets (sockets s ++ [mkSocket sock true None]) s);;
  s ← get_state;
  send (SendValidator (publicKey s)).

(** [socket.close()] on the first socket with the given [key] *)
Fixpoint close_by_key (k : string) (l : list Socket) : list Socket :=
  match l with
  | [] => []
  | x :: rest =>
      if bool_decide (s_key x = Some k)
      then mkSocket (s_id x) false (s_key x) :: rest
      else x :: close_by_key k rest
  end.

(** The ['close'] listener of [connectSocket], on a socket that closed *)
Definition on_close (sock : nat) : M unit :=
  modify (λ s, set_sockets
                 ((λ k, if decide (s_id k = sock)
                        then mkSocket (s_id k) false (s_key k) else k)
                    <$> sockets s) s);;
  modify (set_validators ∅);;
  send SendValidators.

(** The callback of the timer armed by [getVoteTimeout] *)
Definition on_timeout (clock : nat → Z) (tm : Timer) : M unit :=
  modify (λ s, set_timer_state (voteTimeout s)
                 (filter (λ x, timer_id x ≠ timer_id tm) (timers s))
                 (nextTimer s) s);;
  s ← get_state;
  modify (set_sockets
            (foldl (λ l k, close_by_key k l) (sockets s)
               (filter (λ k, k ∉ (consensus s).*1)
                       (elements (lastValidators tm)))));;
  modify (set_consensus []);;
  s ← get_state;
  match vote s with
  | None => throw
  | Some v =>
      let valid := (transactionValid s v false (clock 0%nat)).1 in
      root ← merkle;
      send (SendTransaction (serialize v) (VBool valid) root);;
      getVoteTimeout
  end.

(** The continuation of [Promise.all(openPromises)] in [start()]. The
    watchdog [reconnect], which ends the process when no socket is open,
    is left out: a process that has ended takes no further step. *)
Definition on_started (clock : nat → Z) : M unit :=
  modify (set_consensus []);;
  s ← get_state;
  if existsb s_open (sockets s) then
    modify (set_wantChain true);;
    send SendGetChain
  else if (0 <? length (chain_transactions s))%nat
          && (size (chain_accounts s) =? 0)%nat
  then createAccState clock (chain_transactions s)
  else start_merkle_from 0 (chain_transactions s).

(** *** The event loop *)

Inductive Event :=
| EConnect (sock : nat)
| EMessage (clock : nat → Z) (sock : nat) (m : Message)
| EClose (sock : nat)
| ESubmit (t : Transaction)
| ETimeout (clock : nat → Z) (id : nat)
| EStarted (clock : nat → Z).

(** One turn of the event loop. An exception that escapes a callback
    leaves the mutations done so far. *)
Definition step (e : Event) (s : State) : State :=
  match e with
  | EConnect sock => (connectSocket sock s).1
  | EMessage clock sock m => msgHandler clock sock m s
  | EClose sock => (on_close sock s).1
  | ESubmit t => (sendTransaction t s).1
  | ETimeout clock id =>
      match list_find (λ tm, timer_id tm = id) (timers s) with
      | Some (_, tm) => (on_timeout clock tm s).1
      | None => s
      end
  | EStarted clock => (on_started clock s).1
  end.

Definition run (es : list Event) (s : State) : State :=
  foldl (λ s e, step e s) s es.

(** The states a node can be in. *)
Inductive reachable : State → Prop :=
| reachable_new txs accs pk : reachable (newP2P txs accs pk)
| reachable_step e s : reachable s → reachable (step e s).

End P2P.

(** * Vocabulary of the properties *)

(** ** Relations that a piece of node code maintains *)

(** [c] relates every state to the state it leaves, whether it returns or
    throws. *)
Definition preserves (R : relation State) {A : Type} (c : M A) : Prop :=
  ∀ s, R s (c s).1.

(** The validator set and the public key are left as they are. *)
Definition same_validators (s s' : State) : Prop :=
  validators s' = validators s ∧ publicKey s' = publicKey s.

(** The three ways one event may change the validator set [V] of a node
    with public key [pk]: not at all, by clearing it, or by adding an
    announced key that differs from [pk]. *)
Definition validators_update (pk : string) (V V' : gset string) : Prop :=
  V' = V ∨ V' = ∅ ∨ ∃ data, data ≠ pk ∧ V' = {[data]} ∪ V.

(** The chain, the accounts and the Merkle tree are left as they are. *)
Definition ledger_unchanged (s s' : State) : Prop :=
  chain_transactions s' = chain_transactions s
  ∧ chain_accounts s' = chain_accounts s
  ∧ transactionMerkle s' = transactionMerkle s.

(** What the accept path leaves alone: the pending queue, the timers and
    what was sent. *)
Definition same_slot (s s' : State) : Prop :=
  pendingTxs s' = pendingTxs s
  ∧ voteTimeout s' = voteTimeout s
  ∧ timers s' = timers s
  ∧ sent s' = sent s
  ∧ sockets s' = sockets s.

(** The balance of the account ["GENESIS"], if there is one. *)
Definition genesis_balance (s : State) : option Z :=
  balance <$> chain_accounts s !! "GENESIS".

Definition same_genesis_balance (s s' : State) : Prop :=
  genesis_balance s' = genesis_balance s.


(** ** The Merkle tree between two calls of [add] *)

(** Every level holds at most one node and the top level exactly one. *)
Definition levels_ok (lv : list (list string)) : Prop :=
  Forall (λ l, (length l ≤ 1)%nat) lv ∧ ∃ x, last lv = Some [x].

Definition tree_ok (t : TransactionMerkle) : Prop :=
  (leaves t = [] ∧ levels t = [[]]) ∨ (leaves t ≠ [] ∧ levels_ok (levels t)).

(** ** Chain sync *)



(** ** Submissions and votes *)

(** A submission: a message on a socket, or a call of [sendTransaction]. *)
Inductive Submission :=
| Inbound (clock : nat → Z) (sock : nat) (m : Message)
| Local (t : Transaction).

Section Vocabulary.
Context `{Primitives}.

Definition submit (s : State) (x : Submission) : State :=
  match x with
  | Inbound clock sock m => msgHandler clock sock m s
  | Local t => (sendTransaction t s).1
  end.

(** The transaction that a submission brings to the vote machine of a
    node in state [s]: none when the gossip layer drops the message, when
    it is not a NEW_TRANSACTION, or when its data does not deserialize. *)
Definition arrives (s : State) (x : Submission) : option Transaction :=
  match x with
  | Local t => Some t
  | Inbound _ _ m =>
      if envelope_rejected s m then None
      else match m_body m with
           | NEW_TRANSACTION data => deserialize data
           | _ => None
           end
  end.

Fixpoint arrive_all (s : State) (xs : list Submission)
  : option (list Transaction) :=
  match xs with
  | [] => Some []
  | x :: rest =>
      t ← arrives s x;
      ts ← arrive_all (submit s x) rest;
      Some (t :: ts)
  end.

(** The votes counted by [tally] in state [s] for the candidate [t]:
    those stored in [consensus], with the node's own. *)
Definition votes_at_tally (clock : nat → Z) (t : Transaction) (s : State)
  : list (option JsValid) :=
  entry_valid <$>
    (obj_set (publicKey s)
       (ESelf t (transactionValid s t false (clock 0%nat)).1)
       (consensus s)).*2.

(** What [closeout] leaves when it returns: the timer that
    [this.voteTimeout] refers to is cancelled, and the head of the pending
    queue, if any, is the new vote, announced by a TRANSACTION message,
    with [consensus] cleared. *)
Definition slot_closed (s s' : State) : Prop :=
  (∀ h tm, voteTimeout s = Some h → tm ∈ timers s' → timer_id tm ≠ h)
  ∧ match pendingTxs s with
    | [] => vote s' = None ∧ pendingTxs s' = []
    | tx :: rest =>
        vote s' = Some tx ∧ pendingTxs s' = rest ∧ consensus s' = []
        ∧ ∃ valid root to,
            sent s'
            = sent s ++ [(SendTransaction (serialize tx) valid root, to)]
    end.

End Vocabulary.

(** ** The Merkle tree as a binary counter *)

(** The weight of the nodes held: a node of level [j] stands for [2^j]
    leaves. *)
Fixpoint weight (lv : list (list string)) : nat :=
  match lv with
  | [] => 0
  | l :: upper => length l + 2 * weight upper
  end.

Section MerkleVocabulary.
Context `{Primitives}.

(** The root of the perfect binary tree over [2^k] leaf hashes. *)
Fixpoint perfect_root (k : nat) (l : list string) : string :=
  match k with
  | O => at_index l 0
  | S k' => sha256 (perfect_root k' (take (2 ^ k') l)
                    +:+ perfect_root k' (drop (2 ^ k') l))
  end.

(** The levels from level [j] upwards cover the leaf hashes [hashes]: the
    level is empty or holds the root of the perfect tree over the last
    [2^j] of them, and the levels above cover the ones before. *)
Fixpoint covers (j : nat) (lv : list (list string)) (hashes : list string)
  : Prop :=
  match lv with
  | [] => hashes = []
  | l :: upper =>
      ∃ earlier recent,
        hashes = earlier ++ recent
        ∧ ((l = [] ∧ recent = [])
           ∨ (l = [perfect_root j recent] ∧ length recent = (2 ^ j)%nat))
        ∧ covers (S j) upper earlier
  end.
End MerkleVocabulary.

(** ** What the ledger code may change *)

(** What no code of the replay or of the accept path writes: the fields of
    the node outside the chain, the accounts and the Merkle tree. *)
Definition same_node (s s' : State) : Prop :=
  sockets s' = sockets s
  ∧ validators s' = validators s
  ∧ buf s' = buf s
  ∧ consensus s' = consensus s
  ∧ vote s' = vote s
  ∧ publicKey s' = publicKey s
  ∧ pendingTxs s' = pendingTxs s
  ∧ wantChain s' = wantChain s
  ∧ voteTimeout s' = voteTimeout s
  ∧ timers s' = timers s
  ∧ nextTimer s' = nextTimer s
  ∧ sent s' = sent s
  ∧ forwarded s' = forwarded s.

(** No account is removed. *)
Definition accounts_kept (s s' : State) : Prop :=
  dom (chain_accounts s) ⊆ dom (chain_accounts s').

(** The Merkle tree only gains leaves, and stays well formed. *)
Definition tree_grows (s s' : State) : Prop :=
  leaves (transactionMerkle s) `prefix_of` leaves (transactionMerkle s')
  ∧ (tree_ok (transactionMerkle s) → tree_ok (transactionMerkle s')).

(** The chain only gains records. *)
Definition chain_extended (s s' : State) : Prop :=
  chain_transactions s `prefix_of` chain_transactions s'.

(** The chain does not get shorter. *)
Definition chain_not_shorter (s s' : State) : Prop :=
  (length (chain_transactions s) ≤ length (chain_transactions s'))%nat.

(** The accounts, the tree and the chain grow, and nothing else changes. *)
Definition ledger_grows (s s' : State) : Prop :=
  same_node s s' ∧ chain_extended s s' ∧ accounts_kept s s'
  ∧ tree_grows s s'.

(** As [ledger_grows], with the chain left as it is. *)
Definition replay_grows (s s' : State) : Prop :=
  ledger_grows s s' ∧ chain_transactions s' = chain_transactions s.

(** The chain, the accounts and the tree grow, whatever else changes. *)
Definition ledger_monotone (s s' : State) : Prop :=
  chain_extended s s' ∧ accounts_kept s s' ∧ tree_grows s s'.

(** The chain does not get shorter and the tree grows. *)
Definition step_grows (s s' : State) : Prop :=
  chain_not_shorter s s' ∧ tree_grows s s'.

(** The part [f] of the node is left as it is. *)
Definition keeps {X : Type} (f : State → X) (s s' : State) : Prop :=
  f s' = f s.

(** What the [switch] of [msgHandler] leaves to the gossip layer. *)
Definition wire (s : State)
  : list string * list (nat * Message) * list Socket :=
  (buf s, forwarded s, sockets s).

(** The vote and its timer. *)
Definition slot_timer (s : State)
  : option Transaction * option nat * list Timer * nat :=
  (vote s, voteTimeout s, timers s, nextTimer s).

(** At most one timer is pending: the one that [this.voteTimeout] refers
    to, and only while a vote is open. *)
Definition timer_inv (s : State) : Prop :=
  timers s = []
  ∨ ∃ tm, timers s = [tm] ∧ voteTimeout s = Some (timer_id tm)
          ∧ vote s ≠ None.

(** [c] maintains [timer_inv], whether it returns or throws. *)
Definition inv_preserved {A : Type} (c : M A) : Prop :=
  ∀ s, timer_inv s → timer_inv (c s).1.

(** ** Balances *)

(** No account is overdrawn. *)
Definition solvent (s : State) : Prop :=
  map_Forall (λ _ a, 0 ≤ balance a) (chain_accounts s).

(** A solvent node stays solvent. *)
Definition keeps_solvent (s s' : State) : Prop := solvent s → solvent s'.

(** ** The order of [sort] on strings *)

(** [x] does not come after [y]. *)
Definition str_le (x y : string) : Prop := String.ltb y x = false.

(** ** Stand-ins for the primitives, to run the node on concrete inputs *)

Module Sample.

(** The canonical field order of the serialization, signature apart. *)
Definition fields (t : Transaction) : list string :=
  [tx_from t; tx_to t; pretty (tx_amount t); pretty (tx_nonce t);
   pretty (tx_timestamp t); tx_body t].

Definition sample_serialize (t : Transaction) : string :=
  join "|" (fields t ++ [tx_signature t]).

(** A signature is the marker ["signed:"] followed by the signer. *)
Definition sample_verify (t : Transaction) : bool :=
  String.eqb (tx_signature t) ("signed:" +:+ tx_from t).

(** [known] lists the transactions that deserialize, [chains] the
    serialized record lists that parse. *)
Definition sample_primitives (known : list Transaction)
    (chains : list (string * list HistoryRecord)) : Primitives :=
  {| sha256 := λ s, "sha256(" +:+ s +:+ ")";
     tx_verify := sample_verify;
     tx_hash := λ t, "sha256(" +:+ join "|" (fields t) +:+ ")";
     serialize := sample_serialize;
     deserialize := λ s,
       snd <$> list_find (λ t, sample_serialize t = s) known;
     verifyEnvelope := λ m, String.eqb (m_sign m) ("signed:" +:+ m_key m);
     parseTransactions := λ s, obj_get s chains;
     js_lt_number := λ _ _, false |}.

(** Three records that fund "B", stake for "B" and fund "A". *)
Definition fundB : Transaction :=
  mkTransaction "F" "B" 2000000200 0 0 "GENESIS" "" None.
Definition stakeB : Transaction :=
  mkTransaction "B" "stake" 1000000100 0 1000 "" "signed:B" None.
Definition fundA : Transaction :=
  mkTransaction "F" "A" 1100 0 0 "GENESIS" "" None.
Definition history : list HistoryRecord :=
  [mkRecord fundB [] ""; mkRecord stakeB [] ""; mkRecord fundA [] ""].

(** A transfer from "A" to "C". *)
Definition pay : Transaction :=
  mkTransaction "A" "C" 200 0 1000 "" "signed:A" None.
(** A transfer of "A" dated after the early clock below. *)
Definition payLater : Transaction :=
  mkTransaction "A" "C" 200 0 5000 "" "signed:A" None.
(** A transaction of the genesis window whose sender "X" has no account. *)
Definition grant : Transaction :=
  mkTransaction "X" "A" 500 0 0 "GENESIS" "" None.
(** A genesis allocation. *)
Definition mint : Transaction :=
  mkTransaction "GENESIS" "A" 1100 0 0 "GENESIS" "" None.

Definition prims : Primitives :=
  sample_primitives [fundB; stakeB; fundA; pay; payLater; grant; mint]
                    [("history", history)].

Definition clock0 : nat → Z := λ _, 1000.

Definition signed (body : MsgBody) (for_ : option string) (id key : string)
  : Message :=
  mkMessage body for_ id key ("signed:" +:+ key).

(** Node "S" is given [history], starts without peers, and so replays it;
    then a socket connects and "B" announces itself. *)
Definition fresh : State := newP2P history ∅ "S".
Definition helloB : Message := signed (VALIDATOR "B") None "id-1" "B".
Definition idle : State :=
  @step prims (EMessage clock0 1%nat helloB)
    (@step prims (EConnect 1%nat) (@step prims (EStarted clock0) fresh)).

Definition rootNow : string :=
  "sha256(sha256(F|B|2000000200|0|0|GENESIS)sha256(B|stake|1000000100|0|1000|))".

(** The submission of [pay] arrives and opens the vote. *)
Definition newPay : Message :=
  signed (NEW_TRANSACTION (sample_serialize pay)) None "id-2" "A".
Definition voting : State := @step prims (EMessage clock0 1%nat newPay) idle.

(** "B" votes for [pay], and the slot is tallied. *)
Definition voteB : Message :=
  signed (TRANSACTION (sample_serialize pay) (VBool true) rootNow)
         None "id-3" "B".
Definition committed : State :=
  @step prims (EMessage clock0 1%nat voteB) voting.

(** The replay, from empty accounts, of the chain that the commit left. *)
Definition replayed : State * Completion unit :=
  @createAccState prims clock0 (chain_transactions committed)
    (newP2P (chain_transactions committed) ∅ "S").

(** "B" votes against [pay]; [tallying] is the state in which the tally
    of that message starts. *)
Definition refusalB : Message :=
  signed (TRANSACTION (sample_serialize pay) (VBool false) rootNow)
         None "id-3" "B".
Definition tallying : State :=
  (@count_vote prims refusalB (sample_serialize pay) (VBool false) rootNow
     (gossip 1 refusalB voting)).1.

(** "S" after the first record of [history]. *)
Definition afterFirst : State :=
  (@createAccState_from prims clock0 0 0 [mkRecord fundB [] ""] fresh).1.

(** The submission of [grant] opens the vote, [pay] queues behind it, and
    "B" votes for [grant]. *)
Definition newGrant : Message :=
  signed (NEW_TRANSACTION (sample_serialize grant)) None "id-4" "A".
Definition grantB : Message :=
  signed (TRANSACTION (sample_serialize grant) (VBool true) rootNow)
         None "id-5" "B".
Definition votingGrant : State :=
  @step prims (EMessage clock0 1%nat newPay)
    (@step prims (EMessage clock0 1%nat newGrant) idle).
Definition afterGrant : State :=
  @step prims (EMessage clock0 1%nat grantB) votingGrant.

Definition chainB : Message :=
  signed (CHAIN "history" rootNow) (Some "S") "id-6" "B".


(** [grant] arrives while the vote on [pay] is open, and queues. *)
Definition queued : State :=
  @step prims (EMessage clock0 1%nat newGrant) voting.

(** The states in which the tally of [voteB] starts. *)
Definition tallyingPay : State :=
  (@count_vote prims voteB (sample_serialize pay) (VBool true) rootNow
     (gossip 1 voteB voting)).1.
Definition tallyingQueued : State :=
  (@count_vote prims voteB (sample_serialize pay) (VBool true) rootNow
     (gossip 1 voteB queued)).1.

(** "A" announces itself; it holds no stake. *)
Definition helloA : Message := signed (VALIDATOR "A") None "id-7" "A".

(** "A" asks for the chain. *)
Definition askA : Message := signed GET_CHAIN None "id-8" "A".

(** The timer armed when the vote on [pay] opened. *)
Definition payTimer : Timer := mkTimer 0 {["B"]}.

(** A node that holds [history] and an account, before [start]. *)
Definition restarted : State :=
  newP2P history {["A" := mkAccount 1000 0 0]} "S".

(** Two votes, and the same two votes cast the other way round. *)
Definition votesTF : list (string * option JsValid) :=
  [("B", Some (VBool true)); ("S", Some (VBool false))].
Definition votesFT : list (string * option JsValid) :=
  [("B", Some (VBool false)); ("S", Some (VBool true))].

End Sample.

(** * Properties *)

(** ** The monad of node code *)

Section Preserves.
Context (R : relation State) `{!PreOrder R}.

Lemma preserves_ret {A} (a : A) : preserves R (mret a).
Proof. intros s. reflexivity. Qed.

Lemma preserves_throw {A} : preserves R (@throw A).
Proof. intros s. reflexivity. Qed.

Lemma preserves_get : preserves R get_state.
Proof. intros s. reflexivity. Qed.

Lemma preserves_modify f : (∀ s, R s (f s)) → preserves R (modify f).
Proof. intros Hf s. apply Hf. Qed.

Lemma preserves_bind {A B} (c : M A) (f : A → M B) :
  preserves R c → (∀ a, preserves R (f a)) → preserves R (c ≫= f).
Proof.
  intros Hc Hf s. unfold mbind, M_bind. specialize (Hc s).
  destruct (c s) as [s' [a|]]; simpl in *; [|done].
  etrans; [exact Hc|apply Hf].
Qed.

End Preserves.

Lemma bind_get_state {A} (f : State → M A) s : (get_state ≫= f) s = f s s.
Proof. reflexivity. Qed.

Lemma bind_returns {A B} (c : M A) (f : A → M B) s s' a :
  c s = (s', Returns a) → (c ≫= f) s = f a s'.
Proof. intros Hc. unfold mbind, M_bind. by rewrite Hc. Qed.

Lemma bind_thrown {A B} (c : M A) (f : A → M B) s s' :
  c s = (s', Thrown) → (c ≫= f) s = (s', Thrown).
Proof. intros Hc. unfold mbind, M_bind. by rewrite Hc. Qed.

(** Splits a goal [preserves R c] along the structure of [c]. *)
Ltac frame_step :=
  match goal with
  | |- preserves ?R (mret _) => apply (preserves_ret R)
  | |- preserves ?R throw => apply (preserves_throw R)
  | |- preserves ?R get_state => apply (preserves_get R)
  | |- preserves ?R (mbind _ _) => apply (preserves_bind R); [|intros ?]
  | |- preserves ?R (modify _) => apply (preserves_modify R); intros ?
  | |- preserves _ (match ?x with _ => _ end) => destruct x eqn:?
  | |- preserves _ (let _ := _ in _) => cbv zeta
  end.

(** ** TransactionMerkle: the shape of the tree and the root *)

Section MerkleFacts.
Context `{Primitives}.

Lemma promote_ok upper : ∀ nodes,
  (length nodes = 1 ∨ length nodes = 2)%nat →
  Forall (λ l, (length l ≤ 1)%nat) upper →
  (upper ≠ [] → ∃ x, last upper = Some [x]) →
  levels_ok (promote nodes upper).
Proof.
  induction upper as [|u upper IH]; intros nodes Hlen Hall Htop.
  - destruct nodes as [|a [|b [|c ?]]]; simpl in Hlen; try lia.
    + split; [repeat constructor|]. by exists a.
    + split; [repeat constructor; simpl; lia|]. eexists. reflexivity.
  - inversion Hall as [|? ? Hu Hall']; subst.
    destruct nodes as [|a [|b [|c ?]]]; simpl in Hlen; try lia.
    + cbn [promote length Nat.even andb]. split.
      * constructor; [simpl; lia|done].
      * destruct (Htop ltac:(done)) as [x Hx]. exists x.
        rewrite last_cons. by rewrite Hx.
    + assert (Hsub : levels_ok (promote (u ++ [sha256 (a +:+ b)]) upper)).
      { apply IH.
        - rewrite length_app. simpl.
          destruct u as [|? [|? ?]]; simpl in *; lia.
        - done.
        - intros Hne. destruct (Htop ltac:(done)) as [x Hx].
          exists x. rewrite last_cons in Hx.
          destruct (last upper) eqn:E; [done|].
          by apply last_None in E. }
      destruct Hsub as [Hf [x Hx]].
      change (promote [a; b] (u :: upper))
        with ([] :: promote (u ++ [sha256 (a +:+ b)]) upper).
      split; [constructor; [simpl; lia|done]|].
      exists x. by rewrite last_cons, Hx.
Qed.

Lemma add_ok t a : tree_ok t → tree_ok (add t a).
Proof.
  intros Hok. unfold add. destruct (leafHash_of a) as [h|]; [|done].
  right. destruct Hok as [[Hl Hv]|[Hl [Hall Htop]]].
  - rewrite Hv, Hl. simpl. split; [done|].
    split; [repeat constructor|]. by exists h.
  - destruct (levels t) as [|l0 upper] eqn:E.
    { destruct Htop as [x Hx]. done. }
    simpl. split; [by destruct (leaves t)|].
    inversion Hall as [|? ? Hl0 Hup]; subst.
    apply promote_ok; [|done|].
    + rewrite length_app. simpl. lia.
    + intros Hne. destruct Htop as [x Hx]. exists x.
      rewrite last_cons in Hx. destruct (last upper) eqn:E'; [done|].
      by apply last_None in E'.
Qed.

Lemma build_ok args : tree_ok (build args).
Proof.
  unfold build. assert (Hnew : tree_ok newMerkle) by (by left).
  revert Hnew. generalize newMerkle. induction args as [|a args IH];
    intros t Ht; simpl; [done|]. apply IH. by apply add_ok.
Qed.

Lemma next_level_length nodes next :
  next_level nodes = Some next → length next = Nat.div2 (S (length nodes)).
Proof.
  unfold next_level. intros Hm. apply length_mapM in Hm.
  by rewrite length_seq in Hm.
Qed.

(** With the fuel [getRoot] gives it, the loop stops on at most one node
    or throws; it does not run out of fuel. *)
Lemma reduce_total fuel : ∀ nodes,
  (length nodes ≤ fuel)%nat →
  reduce fuel nodes = Thrown
  ∨ ∃ out, reduce fuel nodes = Returns out ∧ (length out ≤ 1)%nat.
Proof.
  induction fuel as [|fuel IH]; intros nodes Hlen.
  - right. exists nodes. destruct nodes; simpl in *; [split; [done|lia]|lia].
  - simpl. destruct (1 <? length nodes)%nat eqn:E.
    + destruct (next_level nodes) as [next|] eqn:En; [|by left].
      apply IH. apply next_level_length in En. rewrite En.
      apply Nat.ltb_lt in E.
      destruct (length nodes) as [|[|n]]; [lia|lia|].
      simpl. pose proof (Nat.lt_div2 (S n)). simpl in *. lia.
    + right. exists nodes. apply Nat.ltb_ge in E. done.
Qed.


End MerkleFacts.

(** ** The validator set *)

Section Validators.
Context `{Primitives}.

#[local] Instance same_validators_preorder : PreOrder same_validators.
Proof.
  split.
  - by intros s.
  - intros s1 s2 s3 [Hv1 Hk1] [Hv2 Hk2]. split; congruence.
Qed.

Lemma update_account_validators k f :
  preserves same_validators (update_account k f).
Proof.
  intros s. unfold update_account. by destruct (chain_accounts s !! k).
Qed.

Lemma ensure_account_validators k :
  preserves same_validators (ensure_account k).
Proof.
  intros s. unfold ensure_account, modify. simpl.
  by destruct (chain_accounts s !! k).
Qed.

Lemma merkle_validators : preserves same_validators merkle.
Proof. intros s. unfold merkle. by destruct (getRoot _). Qed.

Lemma close_voteTimeout_validators :
  preserves same_validators close_voteTimeout.
Proof.
  intros s. unfold close_voteTimeout, modify. simpl.
  by destruct (voteTimeout s).
Qed.

Create HintDb validators_frame.
Hint Resolve update_account_validators ensure_account_validators
  merkle_validators close_voteTimeout_validators : validators_frame.

Ltac validators_frame :=
  repeat first
    [ progress eauto with validators_frame
    | frame_step
    | progress unfold merkle_add, send, getVoteTimeout ];
  try solve [repeat case_match; split; simpl; done].

Lemma replay_rewards_validators n entries :
  preserves same_validators (replay_rewards n entries).
Proof. induction entries as [|[v b] rest IH]; simpl; validators_frame. Qed.

Lemma commit_rewards_validators n vs :
  preserves same_validators (commit_rewards n vs).
Proof. induction vs as [|v rest IH]; simpl; validators_frame. Qed.

Hint Resolve replay_rewards_validators commit_rewards_validators
  : validators_frame.

Lemma replay_record_validators nowSec i r :
  preserves same_validators (replay_record nowSec i r).
Proof.
  unfold replay_record, replay_debit, replay_credit. validators_frame.
Qed.

Hint Resolve replay_record_validators : validators_frame.

Lemma createAccState_from_validators clock recs :
  ∀ k i, preserves same_validators (createAccState_from clock k i recs).
Proof.
  induction recs as [|r rest IH]; intros k i; simpl; validators_frame.
Qed.

Lemma start_merkle_from_validators recs :
  ∀ i, preserves same_validators (start_merkle_from i recs).
Proof. induction recs as [|r rest IH]; intros i; simpl; validators_frame. Qed.

Hint Resolve createAccState_from_validators start_merkle_from_validators
  : validators_frame.

Lemma handle_CHAIN_validators clock m transactions root :
  preserves same_validators (handle_CHAIN clock m transactions root).
Proof.
  unfold handle_CHAIN, collect_response, adopt_plurality, createAccState.
  validators_frame.
Qed.

Lemma handle_NEW_TRANSACTION_validators clock data :
  preserves same_validators (handle_NEW_TRANSACTION clock data).
Proof. unfold handle_NEW_TRANSACTION. validators_frame. Qed.

Lemma handle_TRANSACTION_validators clock m tx valid root :
  preserves same_validators (handle_TRANSACTION clock m tx valid root).
Proof.
  unfold handle_TRANSACTION, count_vote, tally, commit, closeout.
  validators_frame.
Qed.

Lemma sendTransaction_validators t :
  preserves same_validators (sendTransaction t).
Proof. unfold sendTransaction. validators_frame. Qed.

Lemma connectSocket_validators sock :
  preserves same_validators (connectSocket sock).
Proof. unfold connectSocket. validators_frame. Qed.

Lemma on_timeout_validators clock tm :
  preserves same_validators (on_timeout clock tm).
Proof. unfold on_timeout. validators_frame. Qed.

Lemma on_started_validators clock :
  preserves same_validators (on_started clock).
Proof. unfold on_started, createAccState. validators_frame. Qed.

Hint Resolve handle_CHAIN_validators handle_NEW_TRANSACTION_validators
  handle_TRANSACTION_validators : validators_frame.

Lemma frame_update {A} (c : M A) s :
  preserves same_validators c →
  publicKey (c s).1 = publicKey s
  ∧ validators_update (publicKey s) (validators s) (validators (c s).1).
Proof. intros Hc. destruct (Hc s) as [Hv Hk]. split; [done|]. by left. Qed.

Lemma add_validator_update data s :
  publicKey (add_validator data s).1 = publicKey s
  ∧ validators_update (publicKey s) (validators s)
      (validators (add_validator data s).1).
Proof.
  unfold add_validator, modify. simpl.
  destruct (decide (data = publicKey s)) as [->|Hne].
  - rewrite bool_decide_eq_false_2 by (intros ?; done).
    split; [done|by left].
  - rewrite bool_decide_eq_true_2 by done. simpl.
    split; [done|]. right. right. by exists data.
Qed.

(** The VALIDATORS branch clears the set; the VALIDATOR and
    HELLO_VALIDATOR branches add the announced key when it differs from
    the node's own; no other branch touches the set. *)
Lemma dispatch_update clock m s :
  publicKey (dispatch clock m s).1 = publicKey s
  ∧ validators_update (publicKey s) (validators s)
      (validators (dispatch clock m s).1).
Proof.
  unfold dispatch. rewrite bind_get_state.
  destruct (m_body m) as [|transactions root| |data|data|data|tx valid root|];
    try solve [apply frame_update; validators_frame].
  - destruct (isValidator s m); simpl; [split; [done|by left]|].
    split; [done|]. right. by left.
  - destruct (isValidator s m); [split; [done|by left]|].
    apply (add_validator_update data s).
  - destruct (isValidator s m); [split; [done|by left]|].
    apply (add_validator_update data s).
Qed.

Lemma step_update e s :
  publicKey (step e s) = publicKey s
  ∧ validators_update (publicKey s) (validators s) (validators (step e s)).
Proof.
  destruct e as [sock|clock sock m|sock|t|clock id|clock]; unfold step.
  - apply (frame_update (connectSocket sock)), connectSocket_validators.
  - unfold msgHandler. destruct (envelope_rejected s m).
    { split; [done|by left]. }
    apply (dispatch_update clock m (gossip sock m s)).
  - simpl. split; [done|]. right. by left.
  - apply (frame_update (sendTransaction t)), sendTransaction_validators.
  - destruct (list_find _ _) as [[? tm]|].
    + apply (frame_update (on_timeout clock tm)), on_timeout_validators.
    + split; [done|by left].
  - apply (frame_update (on_started clock)), on_started_validators.
Qed.

(** C10. The node's own public key is never a member of its validator
    set [V]. The set starts empty and the key never changes; every event
    (a message, a socket that connects or closes, a submission, a timeout,
    the end of start-up) leaves [V] as it is, clears it, or adds an
    announced key that differs from the node's own. So the own key is
    outside [V] in every state the node can reach, and after every further
    event. *)
Theorem self_never_validator s :
  reachable s →
  (publicKey s ∉ validators s)
  ∧ ∀ e, publicKey (step e s) = publicKey s
         ∧ validators_update (publicKey s) (validators s)
             (validators (step e s))
         ∧ (publicKey (step e s) ∉ validators (step e s)).
Proof.
  assert (Hstep : ∀ e s, publicKey s ∉ validators s →
                         publicKey (step e s) ∉ validators (step e s)).
  { intros e s0 Hs0. destruct (step_update e s0) as [Hk Hu]. rewrite Hk.
    destruct Hu as [->|[->|(d & Hd & ->)]].
    - done.
    - apply not_elem_of_empty.
    - apply not_elem_of_union. split; [|done].
      apply not_elem_of_singleton. congruence. }
  intros Hr.
  assert (Hs : publicKey s ∉ validators s).
  { induction Hr as [txs accs pk|e s Hr IH]; [|by apply Hstep].
    simpl. apply not_elem_of_empty. }
  split; [done|]. intros e. destruct (step_update e s) as [Hk Hu].
  split; [done|]. split; [done|]. by apply Hstep.
Qed.

End Validators.

(** ** The replay *)

Section Replay.
Context `{Primitives}.





#[local] Instance same_genesis_balance_preorder :
  PreOrder same_genesis_balance.
Proof.
  split.
  - by intros s.
  - intros s1 s2 s3 H1 H2. unfold same_genesis_balance in *. congruence.
Qed.

Lemma update_account_genesis k f :
  (k ≠ "GENESIS" ∨ ∀ a, balance (f a) = balance a) →
  preserves same_genesis_balance (update_account k f).
Proof.
  intros Hk s. unfold update_account.
  destruct (chain_accounts s !! k) as [a|] eqn:E; [|done].
  unfold same_genesis_balance, genesis_balance. simpl.
  destruct (decide (k = "GENESIS")) as [->|Hne].
  - rewrite lookup_insert_eq, E. simpl. destruct Hk as [?|Hk]; [done|].
    by rewrite Hk.
  - by rewrite lookup_insert_ne.
Qed.

Lemma ensure_account_genesis k :
  k ≠ "GENESIS" → preserves same_genesis_balance (ensure_account k).
Proof.
  intros Hk s. unfold ensure_account, modify. simpl.
  destruct (chain_accounts s !! k); [done|].
  unfold same_genesis_balance, genesis_balance. simpl.
  by rewrite lookup_insert_ne.
Qed.

Lemma replay_rewards_genesis n entries :
  "GENESIS" ∉ entries.*1 →
  preserves same_genesis_balance (replay_rewards n entries).
Proof.
  induction entries as [|[v b] rest IH]; intros Hnot; simpl.
  { apply (preserves_ret same_genesis_balance). }
  apply not_elem_of_cons in Hnot as [Hv Hrest]. simpl in Hv.
  apply (preserves_bind same_genesis_balance); [|intros _; by apply IH].
  destruct (loose_eq_false b); apply update_account_genesis; left;
    congruence.
Qed.

(** The counter of the loop never exceeds the number of records
    examined. *)
Lemma createAccState_from_counter clock recs : ∀ k i s s' i',
  createAccState_from clock k i recs s = (s', Returns i') →
  (i' ≤ i + length recs)%nat.
Proof.
  induction recs as [|r rest IH]; intros k i s s' i' Hrun; simpl in *.
  - injection Hrun as _ <-. lia.
  - unfold mbind, M_bind in Hrun.
    destruct (replay_record (clock k) i r s) as [s1 [applied|]]; [|done].
    apply IH in Hrun. destruct applied; lia.
Qed.

(** The loop over [pre ++ post] is the loop over [pre], then the loop over
    [post] with the counter and the state that the first leaves. *)
Lemma createAccState_from_app clock pre post : ∀ k i s,
  createAccState_from clock k i (pre ++ post) s
  = (createAccState_from clock k i pre
     ≫= λ i', createAccState_from clock (k + length pre) i' post) s.
Proof.
  induction pre as [|r rest IH]; intros k i s; simpl.
  - by rewrite Nat.add_0_r.
  - unfold mbind, M_bind.
    destruct (replay_record (clock k) i r s) as [s1 [applied|]]; [|done].
    rewrite IH. unfold mbind, M_bind. by rewrite Nat.add_succ_r.
Qed.

Lemma genesis_record_bypass s nowSec i r :
  (i < 6)%nat →
  tx_body (r_transaction r) = "GENESIS" →
  replay_gate s nowSec i (r_transaction r) = true
  ∧ (tx_from (r_transaction r) = "GENESIS" →
     replay_debit i (r_transaction r) s = (s, Returns tt)
     ∧ (tx_to (r_transaction r) ≠ "GENESIS" →
        "GENESIS" ∉ (r_validators r).*1 →
        genesis_balance (replay_record nowSec i r s).1 = genesis_balance s)).
Proof.
  intros Hi Hbody.
  assert (Hw : (i <? 6)%nat = true) by by apply Nat.ltb_lt.
  assert (Hgate : replay_gate s nowSec i (r_transaction r) = true).
  { unfold replay_gate. by rewrite Hw, Hbody. }
  split; [done|]. intros Hfrom.
  assert (Hdebit : replay_debit i (r_transaction r) s = (s, Returns tt)).
  { unfold replay_debit. by rewrite Hw, Hfrom. }
  split; [done|]. intros Hto Hvals.
  unfold replay_record. rewrite bind_get_state, Hgate.
  change (negb true) with false. cbv iota.
  rewrite (bind_returns _ _ _ _ _ Hdebit).
  match goal with
  | |- genesis_balance (?c s).1 = _ =>
      enough (Hp : preserves same_genesis_balance c) by apply Hp
  end.
  unfold replay_credit, merkle_add.
  repeat first
    [ frame_step
    | apply update_account_genesis
    | apply ensure_account_genesis
    | by apply replay_rewards_genesis ];
    try done; try (by left); try (by right).
Qed.

(** C3, amended. Let [r] be one of the first six records of the chain,
    with [body == "GENESIS"], and let the replay of the records [pre]
    before it have left the state [s1] and the counter [i]. Then [i < 6];
    the loop examines [r] in that state with that counter; [r] passes the
    validity gate whatever [verify()] says; and when its [from] is
    ["GENESIS"] the debit is skipped, so that, [to] and the voters being
    other accounts, the balance of ["GENESIS"] is the same after the
    record as before. *)
Theorem genesis_bypass clock pre r s s1 i :
  (length pre < 6)%nat →
  tx_body (r_transaction r) = "GENESIS" →
  createAccState_from clock 0 0 pre s = (s1, Returns i) →
  (i < 6)%nat
  ∧ (∀ post,
       createAccState_from clock 0 0 (pre ++ r :: post) s
       = (replay_record (clock (length pre)) i r
          ≫= λ applied : bool,
               createAccState_from clock (S (length pre))
                 (if applied then S i else i) post) s1)
  ∧ replay_gate s1 (clock (length pre)) i (r_transaction r) = true
  ∧ (tx_from (r_transaction r) = "GENESIS" →
     replay_debit i (r_transaction r) s1 = (s1, Returns tt)
     ∧ (tx_to (r_transaction r) ≠ "GENESIS" →
        "GENESIS" ∉ (r_validators r).*1 →
        genesis_balance (replay_record (clock (length pre)) i r s1).1
        = genesis_balance s1)).
Proof.
  intros Hpre Hbody Hrun.
  assert (Hi : (i < 6)%nat).
  { apply createAccState_from_counter in Hrun. lia. }
  split; [exact Hi|]. split.
  - intros post. rewrite createAccState_from_app.
    by rewrite (bind_returns _ _ _ _ _ Hrun).
  - by apply genesis_record_bypass.
Qed.

End Replay.

(** ** The vote machine *)

Section Slot.
Context `{Primitives}.

#[local] Instance ledger_unchanged_preorder : PreOrder ledger_unchanged.
Proof.
  split.
  - by intros s.
  - intros s1 s2 s3 (?&?&?) (?&?&?). repeat split; congruence.
Qed.

#[local] Instance same_slot_preorder : PreOrder same_slot.
Proof.
  split.
  - by intros s.
  - intros s1 s2 s3 (?&?&?&?&?) (?&?&?&?&?). repeat split; congruence.
Qed.

Lemma closeout_ledger clock : preserves ledger_unchanged (closeout clock).
Proof.
  unfold closeout, close_voteTimeout, send, merkle.
  repeat frame_step; try solve [repeat case_match; repeat split; simpl; done].
  intros s. by destruct (getRoot _).
Qed.

Lemma count_vote_ledger m tx valid root :
  preserves ledger_unchanged (count_vote m tx valid root).
Proof.
  unfold count_vote, merkle.
  repeat frame_step; try solve [repeat case_match; repeat split; simpl; done].
  intros s. by destruct (getRoot _).
Qed.

(** The tally without a strict majority of [true] leaves the ledger. *)
Lemma tally_rejected_ledger clock t keys s :
  majority (votes_at_tally clock t s) = false →
  ledger_unchanged s (tally clock t keys s).1.
Proof.
  unfold votes_at_tally. intros Hno. unfold tally.
  rewrite bind_get_state.
  unfold mbind at 1, M_bind at 1. unfold modify at 1. cbv beta iota.
  rewrite bind_get_state. cbn [consensus set_consensus].
  rewrite Hno.
  match goal with
  | |- ledger_unchanged s (?c ?s1).1 =>
      trans s1; [done|];
      enough (Hp : preserves ledger_unchanged c) by apply Hp
  end.
  apply (preserves_bind ledger_unchanged).
  - apply (preserves_ret ledger_unchanged).
  - intros _. apply closeout_ledger.
Qed.

(** C6. A TRANSACTION message brings the node to the tally, in state
    [s1] with candidate [v]. When the votes counted there, the node's own
    included, do not hold strictly more [true] than [false], the handler
    leaves the chain, every account (balance, stake and nonce) and the
    Merkle tree as they were before the message: no record is appended and
    no voter is slashed. *)
Theorem rejected_slot_leaves_ledger clock sock m tx valid root s s1 v keys :
  envelope_rejected s m = false →
  m_body m = TRANSACTION tx valid root →
  count_vote m tx valid root (gossip sock m s)
  = (s1, Returns (Some (v, keys))) →
  majority (votes_at_tally clock v s1) = false →
  ledger_unchanged s (msgHandler clock sock m s).
Proof.
  intros He Hb Hc Hno. unfold msgHandler. rewrite He.
  unfold try_catch, dispatch. rewrite bind_get_state, Hb.
  unfold handle_TRANSACTION. rewrite (bind_returns _ _ _ _ _ Hc).
  trans (gossip sock m s); [done|]. trans s1.
  - pose proof (count_vote_ledger m tx valid root (gossip sock m s)) as Hl.
    by rewrite Hc in Hl.
  - by apply tally_rejected_ledger.
Qed.

(** *** Submissions while a vote is live *)

Lemma submit_while_voting s x v t :
  vote s = Some v → arrives s x = Some t →
  vote (submit s x) = Some v
  ∧ pendingTxs (submit s x) = pendingTxs s ++ [t]
  ∧ consensus (submit s x) = consensus s
  ∧ timers (submit s x) = timers s.
Proof.
  intros Hv Ha. destruct x as [clock sock m|t']; simpl in *.
  - unfold msgHandler. destruct (envelope_rejected s m); [done|].
    destruct (m_body m) as [| | | | |data| |] eqn:Hb; try done.
    unfold try_catch, dispatch. rewrite bind_get_state, Hb.
    unfold handle_NEW_TRANSACTION. rewrite Ha, bind_get_state.
    change (vote (gossip sock m s)) with (vote s). by rewrite Hv.
  - injection Ha as ->. unfold sendTransaction.
    rewrite bind_get_state, Hv. done.
Qed.

(** C8. The node holds at most one candidate: [vote] is one optional
    transaction. While it is set, every submission that arrives, be it a
    NEW_TRANSACTION message that passes the gossip layer or a call of
    [sendTransaction], is appended to [pendingTxs], in the order of
    arrival, and opens no slot: the candidate, the votes collected for it
    and the timers stay as they are. *)
Theorem single_slot xs : ∀ s v ts,
  vote s = Some v →
  arrive_all s xs = Some ts →
  vote (foldl submit s xs) = Some v
  ∧ pendingTxs (foldl submit s xs) = pendingTxs s ++ ts
  ∧ consensus (foldl submit s xs) = consensus s
  ∧ timers (foldl submit s xs) = timers s.
Proof.
  induction xs as [|x rest IH]; intros s v ts Hv Hall; simpl in *.
  - injection Hall as <-. by rewrite app_nil_r.
  - destruct (arrives s x) as [t|] eqn:Ha; [|done]. simpl in Hall.
    destruct (arrive_all (submit s x) rest) as [ts'|] eqn:Hr; [|done].
    injection Hall as <-.
    destruct (submit_while_voting s x v t Hv Ha) as (Hv' & Hp & Hc & Ht).
    destruct (IH _ v ts' Hv' Hr) as (-> & -> & -> & ->).
    rewrite Hp, Hc, Ht, <- app_assoc. done.
Qed.

(** *** Opening a slot *)

(** How a slot opens on an idle node ([vote] unset). A NEW_TRANSACTION
    message that carries [t] makes [t] the vote, clears [consensus],
    broadcasts a TRANSACTION message with the serialized [t], the boolean
    [transactionValid(t, true)[0]] and the Merkle root, and arms the vote
    timeout. A call of [sendTransaction(t)] makes [t] the vote, clears
    [consensus] and arms the vote timeout alike, and what it broadcasts is
    the NEW_TRANSACTION message with the serialized [t]. *)
Lemma idle_to_voting clock sock m data t root s :
  vote s = None →
  envelope_rejected s m = false →
  m_body m = NEW_TRANSACTION data →
  deserialize data = Some t →
  getRoot (transactionMerkle s) = Returns root →
  let s1 := msgHandler clock sock m s in
  let s2 := (sendTransaction t s).1 in
  (vote s1 = Some t ∧ consensus s1 = []
   ∧ sent s1
     = sent s
       ++ [(SendTransaction (serialize t)
              (VBool (transactionValid s t true (clock 0%nat)).1) root,
            s_id <$> filter (λ k, s_open k = true)
                            (sockets (gossip sock m s)))]
   ∧ voteTimeout s1 = Some (nextTimer s)
   ∧ timers s1 = timers s ++ [mkTimer (nextTimer s) (validators s)])
  ∧ (vote s2 = Some t ∧ consensus s2 = []
     ∧ sent s2
       = sent s
         ++ [(SendNewTransaction (serialize t),
              s_id <$> filter (λ k, s_open k = true) (sockets s))]
     ∧ voteTimeout s2 = Some (nextTimer s)
     ∧ timers s2 = timers s ++ [mkTimer (nextTimer s) (validators s)]).
Proof.
  intros Hv He Hb Hd Hr. split.
  - unfold msgHandler. rewrite He. unfold try_catch, dispatch.
    rewrite bind_get_state, Hb. unfold handle_NEW_TRANSACTION.
    rewrite Hd, bind_get_state.
    change (vote (gossip sock m s)) with (vote s). rewrite Hv.
    assert (Hm : merkle (gossip sock m s) = (gossip sock m s, Returns root)).
    { unfold merkle.
      change (transactionMerkle (gossip sock m s)) with (transactionMerkle s).
      by rewrite Hr. }
    rewrite (bind_returns _ _ _ _ _ Hm). done.
  - unfold sendTransaction. rewrite bind_get_state, Hv. done.
Qed.

(** *** Closing a slot *)

Lemma update_account_slot k f : preserves same_slot (update_account k f).
Proof.
  intros s. unfold update_account. by destruct (chain_accounts s !! k).
Qed.

Lemma ensure_account_slot k : preserves same_slot (ensure_account k).
Proof.
  intros s. unfold ensure_account, modify. simpl.
  by destruct (chain_accounts s !! k).
Qed.

Lemma commit_rewards_slot n vs : preserves same_slot (commit_rewards n vs).
Proof.
  induction vs as [|v rest IH]; simpl;
    repeat first [ apply update_account_slot | apply IH | frame_step ].
Qed.

Lemma commit_slot t keys : preserves same_slot (commit t keys).
Proof.
  unfold commit, merkle_add.
  repeat first
    [ apply update_account_slot | apply ensure_account_slot
    | apply commit_rewards_slot | frame_step ];
    try solve [repeat split; simpl; done].
Qed.

Lemma closeout_returns clock s :
  (closeout clock s).2 = Returns tt → slot_closed s (closeout clock s).1.
Proof.
  unfold slot_closed. destruct (closeout clock s) as [s' r] eqn:Hc.
  simpl. intros ->. revert Hc.
  unfold closeout, close_voteTimeout, merkle, send, modify, get_state,
    mbind, M_bind, mret, M_ret.
  simpl.
  destruct (voteTimeout s) as [h|] eqn:Hh;
    destruct (pendingTxs s) as [|tx rest] eqn:Hp; simpl; rewrite ?Hp; simpl;
    try destruct (getRoot _) as [root|]; intros Heq; simplify_eq; simpl;
    (split;
     [ intros h' tm Hh' Hin; simplify_eq;
       by apply list_elem_of_filter in Hin as [? _]
     | eauto 10 ]).
Qed.

(** Whenever the tally runs to its end, the slot is closed. *)
Lemma tally_closes_slot clock t keys s :
  (tally clock t keys s).2 = Returns tt →
  slot_closed s (tally clock t keys s).1.
Proof.
  pose (s1 := set_consensus
                (obj_set (publicKey s)
                   (ESelf t (transactionValid s t false (clock 0%nat)).1)
                   (consensus s)) s).
  pose (c := if majority (entry_valid <$> (consensus s1).*2)
             then commit t keys else mret tt).
  assert (Heq : tally clock t keys s = (c ≫= λ _, closeout clock) s1)
    by reflexivity.
  rewrite Heq.
  assert (Hc : preserves same_slot c).
  { subst c. destruct (majority _); [apply commit_slot|].
    apply (preserves_ret same_slot). }
  specialize (Hc s1).
  destruct (c s1) as [s2 [[]|]] eqn:Hcs.
  - rewrite (bind_returns c _ s1 s2 tt Hcs). intros Hret.
    apply closeout_returns in Hret.
    destruct Hc as (Hp & Hv & Ht & Hs & _). simpl in Hp, Hv, Ht, Hs.
    unfold slot_closed in *. by rewrite Hv, Hp, Hs in Hret.
  - by rewrite (bind_thrown c _ s1 s2 Hcs).
Qed.

(** The accept path throws exactly at its debit, when the sender has no
    account and is not the genesis sender of the window. *)
Lemma commit_throws_without_account t keys s :
  chain_accounts s !! tx_from t = None →
  negb (String.eqb (tx_from t) "GENESIS"
        && (length (chain_transactions s) <? 6)%nat) = true →
  commit t keys s = (s, Thrown).
Proof.
  intros Hno Hdebit. unfold commit. rewrite bind_get_state, Hdebit.
  apply bind_thrown. unfold update_account. by rewrite Hno.
Qed.

End Slot.

(** ** Chain sync *)

Section Sync.
Context `{Primitives}.







End Sync.
(** ** The Merkle tree as a binary counter *)

Section MerkleCounter.
Context `{Primitives}.

Lemma leaves_foldl_add args : ∀ t,
  leaves (foldl add t args) = leaves t ++ omap leafHash_of args.
Proof.
  induction args as [|a args IH]; intros t; simpl.
  - by rewrite app_nil_r.
  - rewrite IH. unfold add. destruct (leafHash_of a) as [h|]; [|done].
    destruct (levels t); simpl; by rewrite <- app_assoc.
Qed.

(** X1. After any sequence of calls of [add], [getLeaves()] holds, in the
    order of the calls, the hash of every transaction object added and of
    every serialized transaction that deserializes; an argument that does
    not deserialize leaves no leaf. [size()] is the number of these
    leaves. *)
Theorem leaves_of_build args :
  getLeaves (build args) = omap leafHash_of args
  ∧ merkle_size (build args) = length (omap leafHash_of args).
Proof.
  unfold getLeaves, merkle_size, build. by rewrite leaves_foldl_add.
Qed.

Lemma weight_promote upper : ∀ nodes,
  weight (promote nodes upper) = (length nodes + 2 * weight upper)%nat.
Proof.
  induction upper as [|u upper IH]; intros nodes; simpl.
  - destruct (Nat.even (length nodes) && (0 <? length nodes)%nat) eqn:E;
      simpl; [|lia].
    apply andb_true_iff in E as [Hev Hpos].
    apply Nat.even_spec in Hev as [m Hm]. apply Nat.ltb_lt in Hpos.
    unfold slice_0_m2. rewrite length_take. lia.
  - destruct (Nat.even (length nodes) && (0 <? length nodes)%nat) eqn:E;
      simpl; [|lia].
    apply andb_true_iff in E as [Hev Hpos].
    apply Nat.even_spec in Hev as [m Hm]. apply Nat.ltb_lt in Hpos.
    rewrite IH. unfold slice_0_m2. rewrite length_take, length_app. simpl. lia.
Qed.

Lemma promote_covers upper : ∀ j l hashes c,
  covers j (l :: upper) hashes →
  length c = (2 ^ j)%nat →
  covers j (promote (l ++ [perfect_root j c]) upper) (hashes ++ c).
Proof.
  induction upper as [|u upper IH]; intros j l hashes c Hcov Hc.
  - destruct Hcov as (earlier & recent & -> & Hl & Hup). simpl in Hup. subst.
    destruct Hl as [[-> ->]|[-> Hr]]; simpl.
    + exists [], c. split; [done|]. split; [by right|done].
    + exists (recent ++ c), []. split; [by rewrite app_nil_r|].
      split; [by left|].
      exists [], (recent ++ c). split; [done|]. split; [|done]. right.
      split.
      * rewrite <- Hr. by rewrite take_app_length, drop_app_length.
      * rewrite length_app. simpl. lia.
  - destruct Hcov as (earlier & recent & -> & Hl & Hup).
    destruct Hl as [[-> ->]|[-> Hr]].
    + simpl. exists earlier, c. rewrite app_nil_r.
      split; [done|]. split; [by right|done].
    + change (promote ([perfect_root j recent] ++ [perfect_root j c])
                (u :: upper))
        with ([] :: promote
                      (u ++ [sha256 (perfect_root j recent
                                     +:+ perfect_root j c)]) upper).
      exists (earlier ++ recent ++ c), [].
      split; [by rewrite app_nil_r, app_assoc|].
      split; [by left|].
      assert (Hh : sha256 (perfect_root j recent +:+ perfect_root j c)
                   = perfect_root (S j) (recent ++ c)).
      { simpl. rewrite <- Hr. by rewrite take_app_length, drop_app_length. }
      rewrite Hh. apply IH; [done|]. rewrite length_app. simpl. lia.
Qed.

Lemma add_covers t a :
  covers 0 (levels t) (leaves t) → levels t ≠ [] →
  covers 0 (levels (add t a)) (leaves (add t a)) ∧ levels (add t a) ≠ [].
Proof.
  intros Hcov Hne. unfold add. destruct (leafHash_of a) as [h|]; [|done].
  destruct (levels t) as [|l0 upper] eqn:E; [done|]. simpl. split.
  - apply (promote_covers upper 0 l0 (leaves t) [h]); done.
  - destruct upper; simpl; by repeat case_match.
Qed.

Lemma build_covers args :
  covers 0 (levels (build args)) (leaves (build args)).
Proof.
  unfold build.
  assert (Hnew : covers 0 (levels newMerkle) (leaves newMerkle)
                 ∧ levels newMerkle ≠ []).
  { split; [|done]. exists [], []. split; [done|]. split; [by left|done]. }
  revert Hnew. generalize newMerkle.
  induction args as [|a args IH]; intros t [Hc Hne]; simpl; [done|].
  apply IH. by apply add_covers.
Qed.

Lemma covers_weight lv : ∀ j hashes,
  covers j lv hashes → length hashes = (2 ^ j * weight lv)%nat.
Proof.
  induction lv as [|l upper IH]; intros j hashes Hcov; simpl in *.
  - subst. simpl. lia.
  - destruct Hcov as (earlier & recent & -> & Hl & Hup).
    apply IH in Hup. rewrite length_app, Hup. simpl.
    destruct Hl as [[-> ->]|[-> Hr]]; simpl; lia.
Qed.

Lemma covers_top lv : ∀ j hashes x,
  covers j lv hashes → last lv = Some [x] →
  x = perfect_root (j + length lv - 1)
        (take (2 ^ (j + length lv - 1)) hashes)
  ∧ (2 ^ (j + length lv - 1) ≤ length hashes)%nat.
Proof.
  induction lv as [|l upper IH]; intros j hashes x Hcov Hlast; [done|].
  destruct Hcov as (earlier & recent & -> & Hl & Hup).
  destruct upper as [|u upper].
  - simpl in Hup, Hlast. subst. simplify_eq.
    destruct Hl as [[? ?]|[Hx Hr]]; [done|]. simplify_eq. simpl.
    replace (j + 1 - 1)%nat with j by lia.
    rewrite <- Hr. by rewrite firstn_all.
  - destruct (IH (S j) earlier x Hup) as [Hx Hlen].
    { by rewrite last_cons_cons in Hlast. }
    replace (j + length (l :: u :: upper) - 1)%nat
      with (S j + length (u :: upper) - 1)%nat by (simpl; lia).
    split.
    + rewrite take_app_le by done. done.
    + rewrite length_app. lia.
Qed.

Lemma weight_bound lv :
  Forall (λ l, (length l ≤ 1)%nat) lv → (weight lv < 2 ^ length lv)%nat.
Proof.
  induction 1 as [|l lv Hl _ IH]; simpl; lia.
Qed.

Lemma reduce_single fuel x : reduce fuel [x] = Returns [x].
Proof. by destruct fuel. Qed.

(** X2. Between two calls of [add] the levels are a binary counter of the
    leaves: with a node of level [j] counted as [2^j] leaves the nodes
    held count [size()] leaves, every level holds at most one node, and
    there are [⌊log2 size()⌋ + 1] levels (one, empty, for the empty
    tree). *)
Theorem levels_binary_counter args :
  weight (levels (build args)) = merkle_size (build args)
  ∧ Forall (λ l, (length l ≤ 1)%nat) (levels (build args))
  ∧ length (levels (build args)) = S (Nat.log2 (merkle_size (build args))).
Proof.
  pose proof (covers_weight _ _ _ (build_covers args)) as Hw.
  unfold merkle_size. simpl in Hw. rewrite Nat.add_0_r in Hw.
  split; [done|].
  destruct (build_ok args) as [[Hl Hv]|[Hl [Hall [x Hx]]]].
  - rewrite Hv, Hl. split; [repeat constructor|]. done.
  - split; [done|].
    destruct (covers_top _ _ _ _ (build_covers args) Hx) as [_ Hlow].
    pose proof (weight_bound _ Hall) as Hup. rewrite <- Hw in Hup.
    simpl in Hlow.
    destruct (levels (build args)) as [|l lv] eqn:E; [done|].
    simpl in *. rewrite Nat.sub_0_r in Hlow. f_equal. symmetry.
    apply Nat.log2_unique; simpl; lia.
Qed.

(** X3. For a tree of [n > 0] leaves and [k = ⌊log2 n⌋], [getRoot()] returns
    the root of the perfect binary tree over the first [2^k] leaves: the
    leaves added after them do not enter the root until their number
    reaches the next power of two. *)
Theorem root_is_perfect_prefix args :
  let t := build args in
  let k := Nat.log2 (merkle_size t) in
  (0 < merkle_size t)%nat →
  getRoot t = Returns (Some (perfect_root k (take (2 ^ k) (getLeaves t)))).
Proof.
  intros t k Hn. subst t k. unfold merkle_size, getLeaves in *.
  destruct (build_ok args) as [[Hl Hv]|[Hl [Hall [x Hx]]]].
  { rewrite Hl in Hn. simpl in Hn. lia. }
  destruct (covers_top _ _ _ _ (build_covers args) Hx) as [Hroot Hlow].
  pose proof (covers_weight _ _ _ (build_covers args)) as Hw.
  pose proof (weight_bound _ Hall) as Hup.
  simpl in Hw, Hlow, Hroot. rewrite Nat.add_0_r in Hw. rewrite <- Hw in Hup.
  assert (Hk : Nat.log2 (length (leaves (build args)))
               = (length (levels (build args)) - 1)%nat).
  { apply Nat.log2_unique; [lia|]. split; [done|].
    destruct (levels (build args)); [done|]. simpl in *.
    rewrite Nat.sub_0_r. lia. }
  rewrite Hk, <- Hroot. unfold getRoot.
  destruct (length (leaves (build args)) =? 0)%nat eqn:E.
  { apply Nat.eqb_eq in E. lia. }
  rewrite Hx. by rewrite reduce_single.
Qed.
End MerkleCounter.

(** ** What the events keep *)

Lemma preserves_weaken (R R' : relation State) {A} (c : M A) :
  (∀ s s', R s s' → R' s s') → preserves R c → preserves R' c.
Proof. intros Hsub Hc s. apply Hsub, Hc. Qed.

(** ** The relations are preorders *)

#[global] Instance same_node_preorder : PreOrder same_node.
Proof.
  split.
  - by intros s.
  - intros s1 s2 s3 H1 H2. unfold same_node in *.
    destruct_and!. repeat split; congruence.
Qed.

#[global] Instance accounts_kept_preorder : PreOrder accounts_kept.
Proof.
  split.
  - intros s. unfold accounts_kept. set_solver.
  - intros s1 s2 s3 H1 H2. unfold accounts_kept in *. set_solver.
Qed.

#[global] Instance tree_grows_preorder : PreOrder tree_grows.
Proof.
  split.
  - intros s. split; [reflexivity|done].
  - intros s1 s2 s3 [H1 H1'] [H2 H2']. split; [by etrans|auto].
Qed.

#[global] Instance chain_extended_preorder : PreOrder chain_extended.
Proof.
  split.
  - intros s. unfold chain_extended. reflexivity.
  - intros s1 s2 s3 H1 H2. unfold chain_extended in *. by etrans.
Qed.

#[global] Instance chain_not_shorter_preorder : PreOrder chain_not_shorter.
Proof.
  split.
  - intros s. unfold chain_not_shorter. lia.
  - intros s1 s2 s3 H1 H2. unfold chain_not_shorter in *. lia.
Qed.

#[global] Instance ledger_grows_preorder : PreOrder ledger_grows.
Proof.
  split.
  - intros s. split; [reflexivity|]. split; [reflexivity|].
    split; reflexivity.
  - intros s1 s2 s3 (?&?&?&?) (?&?&?&?).
    split; [by etrans|]. split; [by etrans|]. split; by etrans.
Qed.

#[global] Instance replay_grows_preorder : PreOrder replay_grows.
Proof.
  split.
  - intros s. split; reflexivity.
  - intros s1 s2 s3 [? ?] [? ?]. split; [by etrans|congruence].
Qed.

#[global] Instance ledger_monotone_preorder : PreOrder ledger_monotone.
Proof.
  split.
  - intros s. split; [reflexivity|]. split; reflexivity.
  - intros s1 s2 s3 (?&?&?) (?&?&?).
    split; [by etrans|]. split; by etrans.
Qed.

#[global] Instance step_grows_preorder : PreOrder step_grows.
Proof.
  split.
  - intros s. split; reflexivity.
  - intros s1 s2 s3 [? ?] [? ?]. split; by etrans.
Qed.

#[global] Instance keeps_preorder {X} (f : State → X) : PreOrder (keeps f).
Proof.
  split.
  - by intros s.
  - intros s1 s2 s3 H1 H2. unfold keeps in *. congruence.
Qed.

Section Ledger.
Context `{Primitives}.

Ltac grows_leaf :=
  repeat split; unfold accounts_kept, chain_extended; simpl;
  try first
    [ done | reflexivity | apply dom_insert_subseteq
    | by apply prefix_app_r | apply add_ok ].

Lemma update_account_grows k f : preserves replay_grows (update_account k f).
Proof.
  intros s. unfold update_account.
  destruct (chain_accounts s !! k) eqn:E; [|reflexivity].
  grows_leaf.
Qed.

Lemma ensure_account_grows k : preserves replay_grows (ensure_account k).
Proof.
  intros s. unfold ensure_account, modify. simpl.
  destruct (chain_accounts s !! k) eqn:E; [reflexivity|].
  grows_leaf.
Qed.

Lemma merkle_add_grows t : preserves replay_grows (merkle_add t).
Proof.
  intros s. unfold merkle_add, modify. simpl.
  grows_leaf. unfold add. destruct (leafHash_of _); [|reflexivity].
  destruct (levels _); simpl; by apply prefix_app_r.
Qed.

Lemma merkle_grows : preserves replay_grows merkle.
Proof. intros s. unfold merkle. destruct (getRoot _); reflexivity. Qed.

Create HintDb ledger_frame.
Hint Resolve update_account_grows ensure_account_grows merkle_add_grows
  merkle_grows : ledger_frame.

Ltac replay_frame :=
  repeat first [ progress eauto with ledger_frame | frame_step ].

Lemma replay_rewards_grows n entries :
  preserves replay_grows (replay_rewards n entries).
Proof. induction entries as [|[v b] rest IH]; simpl; replay_frame. Qed.

Hint Resolve replay_rewards_grows : ledger_frame.

Lemma replay_record_grows nowSec i r :
  preserves replay_grows (replay_record nowSec i r).
Proof.
  unfold replay_record, replay_debit, replay_credit. replay_frame.
Qed.

Hint Resolve replay_record_grows : ledger_frame.

Lemma createAccState_from_grows clock recs : ∀ k i,
  preserves replay_grows (createAccState_from clock k i recs).
Proof. induction recs as [|r rest IH]; intros k i; simpl; replay_frame. Qed.

Lemma start_merkle_from_grows recs : ∀ i,
  preserves replay_grows (start_merkle_from i recs).
Proof. induction recs as [|r rest IH]; intros i; simpl; replay_frame. Qed.

Hint Resolve createAccState_from_grows start_merkle_from_grows : ledger_frame.

Lemma createAccState_grows clock recs :
  preserves replay_grows (createAccState clock recs).
Proof. unfold createAccState. replay_frame. Qed.

Hint Resolve createAccState_grows : ledger_frame.

Lemma replay_grows_ledger s s' : replay_grows s s' → ledger_grows s s'.
Proof. by intros [? _]. Qed.

Lemma commit_rewards_grows n vs : preserves replay_grows (commit_rewards n vs).
Proof. induction vs as [|v rest IH]; simpl; replay_frame. Qed.

Hint Resolve commit_rewards_grows : ledger_frame.

Ltac by_replay :=
  solve [apply (preserves_weaken replay_grows _ _ replay_grows_ledger);
         eauto with ledger_frame].

Lemma commit_record_grows t :
  preserves ledger_grows
    (s ← get_state;
     let validatorsVotes := (λ kv, (kv.1, entry_valid kv.2)) <$> consensus s in
     modify (set_chain_transactions
               (chain_transactions s
                ++ [mkRecord t validatorsVotes
                      (hash_validators validatorsVotes)]));;
     merkle_add t).
Proof.
  intros s. rewrite bind_get_state. cbv zeta.
  match goal with
  | |- ledger_grows _ ((modify ?f ≫= _) _).1 =>
      change (ledger_grows s (merkle_add t (f s)).1); trans (f s)
  end.
  - grows_leaf.
  - apply replay_grows_ledger, merkle_add_grows.
Qed.

Lemma commit_grows t keys : preserves ledger_grows (commit t keys).
Proof.
  unfold commit.
  repeat first [ by_replay | apply commit_record_grows | frame_step ].
Qed.

Lemma ledger_grows_monotone s s' : ledger_grows s s' → ledger_monotone s s'.
Proof. by intros (_&?&?&?). Qed.

Lemma ledger_monotone_step s s' : ledger_monotone s s' → step_grows s s'.
Proof.
  intros (Hc&_&?). split; [|done].
  unfold chain_extended, chain_not_shorter in *. by apply prefix_length.
Qed.

Lemma ledger_grows_wire s s' : ledger_grows s s' → keeps wire s s'.
Proof.
  intros (Hn&_). unfold same_node in Hn. destruct_and!.
  unfold keeps, wire. congruence.
Qed.

Lemma ledger_grows_buf s s' : ledger_grows s s' → keeps buf s s'.
Proof. intros (Hn&_). unfold same_node in Hn. by destruct_and!. Qed.

Lemma ledger_grows_pending s s' : ledger_grows s s' → keeps pendingTxs s s'.
Proof. intros (Hn&_). unfold same_node in Hn. by destruct_and!. Qed.

Lemma ledger_grows_slot_timer s s' :
  ledger_grows s s' → keeps slot_timer s s'.
Proof.
  intros (Hn&_). unfold same_node in Hn. destruct_and!.
  unfold keeps, slot_timer. congruence.
Qed.

(** The ledger code, by its name. *)
Ltac ledger_code :=
  match goal with
  | |- preserves _ (update_account _ _) => idtac
  | |- preserves _ (ensure_account _) => idtac
  | |- preserves _ (merkle_add _) => idtac
  | |- preserves _ merkle => idtac
  | |- preserves _ (replay_rewards _ _) => idtac
  | |- preserves _ (commit_rewards _ _) => idtac
  | |- preserves _ (replay_record _ _ _) => idtac
  | |- preserves _ (createAccState_from _ _ _ _) => idtac
  | |- preserves _ (createAccState _ _) => idtac
  | |- preserves _ (start_merkle_from _ _) => idtac
  end.

(** Splits [preserves R c] for node code [c], given that the ledger code
    maintains [R]; [leaf] is to solve what the writes of [c] leave. *)
Ltac handler_frame Hw leaf :=
  repeat first
    [ match goal with
      | |- preserves _ (commit _ _) =>
          apply (preserves_weaken ledger_grows _ _ Hw), commit_grows
      end
    | ledger_code;
      apply (preserves_weaken replay_grows _ _
               (λ s s' h, Hw s s' (replay_grows_ledger s s' h)));
      solve [eauto with ledger_frame]
    | frame_step
    | progress unfold send, getVoteTimeout, close_voteTimeout, add_validator,
        collect_response ];
  try solve [intros; repeat case_match; leaf].

Ltac monotone_leaf :=
  repeat split; unfold accounts_kept, chain_extended; simpl;
  first [ done | reflexivity ].

Ltac keeps_leaf := unfold keeps, wire, slot_timer; simpl; done.

Lemma closeout_monotone clock : preserves ledger_monotone (closeout clock).
Proof.
  unfold closeout. handler_frame ledger_grows_monotone monotone_leaf.
Qed.

Lemma count_vote_monotone m tx valid root :
  preserves ledger_monotone (count_vote m tx valid root).
Proof.
  unfold count_vote. handler_frame ledger_grows_monotone monotone_leaf.
Qed.

Lemma tally_monotone clock t keys :
  preserves ledger_monotone (tally clock t keys).
Proof.
  unfold tally. handler_frame ledger_grows_monotone monotone_leaf;
    apply closeout_monotone.
Qed.

Lemma handle_TRANSACTION_monotone clock m tx valid root :
  preserves ledger_monotone (handle_TRANSACTION clock m tx valid root).
Proof.
  unfold handle_TRANSACTION.
  apply (preserves_bind ledger_monotone); [apply count_vote_monotone|].
  intros [[v keys]|]; [apply tally_monotone|].
  apply (preserves_ret ledger_monotone).
Qed.

Lemma handle_NEW_TRANSACTION_monotone clock data :
  preserves ledger_monotone (handle_NEW_TRANSACTION clock data).
Proof.
  unfold handle_NEW_TRANSACTION.
  handler_frame ledger_grows_monotone monotone_leaf.
Qed.

(** The [switch] but for [case "CHAIN"]. *)
Lemma dispatch_monotone clock m :
  (∀ transactions root, m_body m ≠ CHAIN transactions root) →
  preserves ledger_monotone (dispatch clock m).
Proof.
  intros Hb. unfold dispatch.
  apply (preserves_bind ledger_monotone); [apply (preserves_get _)|].
  intros s. destruct (m_body m) eqn:E;
    try solve [handler_frame ledger_grows_monotone monotone_leaf].
  - by destruct (Hb transactions root).
  - apply handle_NEW_TRANSACTION_monotone.
  - apply handle_TRANSACTION_monotone.
Qed.

Lemma sendTransaction_monotone t :
  preserves ledger_monotone (sendTransaction t).
Proof.
  unfold sendTransaction. handler_frame ledger_grows_monotone monotone_leaf.
Qed.

Lemma connectSocket_monotone sock :
  preserves ledger_monotone (connectSocket sock).
Proof.
  unfold connectSocket. handler_frame ledger_grows_monotone monotone_leaf.
Qed.

Lemma on_close_monotone sock : preserves ledger_monotone (on_close sock).
Proof.
  unfold on_close. handler_frame ledger_grows_monotone monotone_leaf.
Qed.

Lemma on_timeout_monotone clock tm :
  preserves ledger_monotone (on_timeout clock tm).
Proof.
  unfold on_timeout. handler_frame ledger_grows_monotone monotone_leaf.
Qed.

Lemma on_started_monotone clock : preserves ledger_monotone (on_started clock).
Proof.
  unfold on_started. handler_frame ledger_grows_monotone monotone_leaf.
Qed.

Lemma gossip_monotone sock m s : ledger_monotone s (gossip sock m s).
Proof. monotone_leaf. Qed.

(** Chain adoption: the chain is replaced by one that is not shorter, and
    the replay extends the tree it finds. *)
Lemma adopt_plurality_grows clock :
  preserves step_grows (adopt_plurality clock).
Proof.
  intros s. unfold adopt_plurality. rewrite bind_get_state.
  destruct (_ <=? _); [|reflexivity].
  destruct (plurality_transactions _) as [txs|]; [|reflexivity].
  destruct (length (chain_transactions s) <=? length txs)%nat eqn:Hlen;
    [|reflexivity].
  apply Nat.leb_le in Hlen.
  match goal with
  | |- step_grows _ ((modify ?f ≫= ?k) _).1 =>
      change (step_grows s (k tt (f s)).1); trans (f s)
  end.
  - split; [exact Hlen|]. split; simpl; [reflexivity|done].
  - destruct (length txs =? 0)%nat; [reflexivity|].
    apply ledger_monotone_step, ledger_grows_monotone, replay_grows_ledger,
      createAccState_grows.
Qed.

Lemma handle_CHAIN_grows clock m transactions root :
  preserves step_grows (handle_CHAIN clock m transactions root).
Proof.
  unfold handle_CHAIN.
  repeat first
    [ apply adopt_plurality_grows
    | frame_step
    | progress unfold collect_response ].
  intros; repeat case_match; repeat split; unfold chain_not_shorter; simpl;
    first [done|reflexivity].
Qed.

Lemma dispatch_grows clock m : preserves step_grows (dispatch clock m).
Proof.
  destruct (m_body m) as [|transactions root| | | | | |] eqn:E.
  2:{ unfold dispatch. rewrite E.
      apply (preserves_bind step_grows); [apply (preserves_get _)|].
      intros _. apply handle_CHAIN_grows. }
  all: apply (preserves_weaken ledger_monotone _ _ ledger_monotone_step),
         dispatch_monotone; intros ? ?; by rewrite E.
Qed.

Lemma step_monotone e s :
  (∀ clock sock m transactions root,
     e = EMessage clock sock m → m_body m ≠ CHAIN transactions root) →
  ledger_monotone s (step e s).
Proof.
  intros Hb. destruct e as [sock|clock sock m|sock|t|clock id|clock];
    unfold step.
  - apply connectSocket_monotone.
  - unfold msgHandler. destruct (envelope_rejected s m); [reflexivity|].
    trans (gossip sock m s); [apply gossip_monotone|].
    apply dispatch_monotone. intros transactions root. by eapply Hb.
  - apply on_close_monotone.
  - apply sendTransaction_monotone.
  - destruct (list_find _ _) as [[? tm]|]; [|reflexivity].
    apply on_timeout_monotone.
  - apply on_started_monotone.
Qed.

Lemma step_step_grows e s : step_grows s (step e s).
Proof.
  destruct e as [sock|clock sock m|sock|t|clock id|clock].
  2:{ unfold step, msgHandler.
      destruct (envelope_rejected s m); [reflexivity|].
      trans (gossip sock m s);
        [apply ledger_monotone_step, gossip_monotone|apply dispatch_grows]. }
  all: by apply ledger_monotone_step, step_monotone.
Qed.

Lemma reachable_tree_ok s : reachable s → tree_ok (transactionMerkle s).
Proof.
  induction 1 as [txs accs pk|e s _ IH]; [by left|].
  by apply (step_step_grows e s).
Qed.

Lemma getRoot_total t : tree_ok t → ∃ root, getRoot t = Returns (Some root).
Proof.
  intros [[Hl Hv]|[Hl [_ [x Hx]]]]; unfold getRoot.
  - rewrite Hl. by eexists.
  - destruct (length (leaves t) =? 0)%nat eqn:E.
    { apply Nat.eqb_eq in E. by destruct (leaves t). }
    rewrite Hx, reduce_single. by eexists.
Qed.

(** *** The ledger under the events *)

(** X4. [createAccState], whether it returns or throws, changes the accounts
    and the Merkle tree only: the chain and every other field of the node
    are left as they are, no account is removed, the leaves it finds stay a
    prefix of the leaves, and a well-formed tree stays well formed. *)
Theorem replay_only_grows clock recs s :
  let s' := (createAccState clock recs s).1 in
  same_node s s'
  ∧ chain_transactions s' = chain_transactions s
  ∧ accounts_kept s s'
  ∧ tree_grows s s'.
Proof.
  intros s'. destruct (createAccState_grows clock recs s) as [(?&?&?&?) ?].
  done.
Qed.

(** X5. No event removes or reorders a leaf of the Merkle tree: the leaves
    before the event are a prefix of the leaves after it. This holds for
    the adoption of a chain as well, which replays the adopted chain into
    the tree it finds. *)
Theorem merkle_tree_append_only e s :
  leaves (transactionMerkle s)
    `prefix_of` leaves (transactionMerkle (step e s)).
Proof. by destruct (step_step_grows e s) as [_ [? _]]. Qed.

(** X6. In every state the node reaches, [merkle()] returns a string: it
    neither throws nor returns [undefined]. *)
Theorem merkle_returns_root s :
  reachable s → ∃ root, merkle s = (s, Returns (Some root)).
Proof.
  intros Hs. apply reachable_tree_ok, getRoot_total in Hs as [root Hr].
  exists root. unfold merkle. by rewrite Hr.
Qed.

(** X7. No event makes [chain.transactions] shorter. *)
Theorem chain_never_shorter e s :
  (length (chain_transactions s)
   ≤ length (chain_transactions (step e s)))%nat.
Proof. by destruct (step_step_grows e s) as [? _]. Qed.

(** *** The gossip layer *)

Ltac wire_frame :=
  unfold handle_CHAIN, adopt_plurality, handle_NEW_TRANSACTION,
    handle_TRANSACTION, count_vote, tally, closeout, sendTransaction,
    connectSocket, on_close, on_timeout, on_started;
  handler_frame ledger_grows_wire keeps_leaf.

Lemma dispatch_wire clock m : preserves (keeps wire) (dispatch clock m).
Proof. unfold dispatch. wire_frame. Qed.

Ltac buf_frame :=
  unfold sendTransaction, connectSocket, on_close, on_timeout, on_started;
  handler_frame ledger_grows_buf keeps_leaf.

Lemma sendTransaction_buf t : preserves (keeps buf) (sendTransaction t).
Proof. buf_frame. Qed.

Lemma connectSocket_buf sock : preserves (keeps buf) (connectSocket sock).
Proof. buf_frame. Qed.

Lemma on_close_buf sock : preserves (keeps buf) (on_close sock).
Proof. buf_frame. Qed.

Lemma on_timeout_buf clock tm : preserves (keeps buf) (on_timeout clock tm).
Proof. buf_frame. Qed.

Lemma on_started_buf clock : preserves (keeps buf) (on_started clock).
Proof. buf_frame. Qed.

Lemma msgHandler_wire clock sock m s :
  envelope_rejected s m = false →
  wire (msgHandler clock sock m s) = wire (gossip sock m s).
Proof.
  intros E. unfold msgHandler. rewrite E. apply dispatch_wire.
Qed.

Lemma step_buf e s :
  buf (step e s) = buf s
  ∨ ∃ clock sock m, e = EMessage clock sock m
      ∧ envelope_rejected s m = false
      ∧ buf (step e s) = remember_id (m_id m) (buf s).
Proof.
  destruct e as [sock|clock sock m|sock|t|clock id|clock]; unfold step.
  - left. apply connectSocket_buf.
  - destruct (envelope_rejected s m) eqn:E.
    { left. unfold msgHandler. by rewrite E. }
    right. exists clock, sock, m. split; [done|]. split; [done|].
    pose proof (msgHandler_wire clock sock m s E) as Hw.
    unfold wire in Hw. by simplify_eq.
  - left. apply on_close_buf.
  - left. apply sendTransaction_buf.
  - left. destruct (list_find _ _) as [[? tm]|]; [|done].
    apply on_timeout_buf.
  - left. apply on_started_buf.
Qed.

Lemma remember_id_length id b :
  (length b ≤ 10 → length (remember_id id b) ≤ 10)%nat.
Proof.
  intros Hb. unfold remember_id.
  destruct (10 <? length (b ++ [id]))%nat eqn:E.
  - destruct b as [|x b]; simpl in *; [lia|]. rewrite length_app in *.
    simpl in *. lia.
  - by apply Nat.ltb_ge in E.
Qed.

Lemma remember_id_snoc id b : ∃ pre, remember_id id b = pre ++ [id].
Proof.
  unfold remember_id. destruct (10 <? length (b ++ [id]))%nat eqn:E.
  - destruct b as [|x b]; [done|]. by exists b.
  - by exists b.
Qed.

Lemma run_keeps_id id es : ∀ s pre post,
  buf s = pre ++ id :: post →
  (length post + length es ≤ 9)%nat →
  id ∈ buf (run es s).
Proof.
  induction es as [|e es IH]; intros s pre post Hb Hlen; simpl.
  - rewrite Hb. set_solver.
  - simpl in Hlen.
    destruct (step_buf e s) as [He|(clock & sock & m & _ & _ & He)].
    + apply (IH _ pre post); [congruence|lia].
    + unfold remember_id in He. rewrite Hb in He.
      destruct (10 <? _)%nat eqn:E.
      * destruct pre as [|x pre].
        { apply Nat.ltb_lt in E. simpl in E. rewrite length_app in E.
          simpl in E. lia. }
        apply (IH _ pre (post ++ [m_id m])).
        -- rewrite He. simpl. by rewrite <- app_assoc.
        -- rewrite length_app. simpl. lia.
      * apply (IH _ pre (post ++ [m_id m])).
        -- rewrite He. by rewrite <- app_assoc.
        -- rewrite length_app. simpl. lia.
Qed.

(** X8. In every state the node reaches, [buf] holds at most ten message
    ids. *)
Theorem buf_at_most_ten s : reachable s → (length (buf s) ≤ 10)%nat.
Proof.
  induction 1 as [txs accs pk|e s _ IH]; [simpl; lia|].
  destruct (step_buf e s) as [He|(clock & sock & m & _ & _ & He)];
    rewrite He; [done|]. by apply remember_id_length.
Qed.

(** X9. A message that passed the guard of the handler is dropped, and
    leaves the node as it is, when it arrives again, on whatever socket,
    after at most nine further events. *)
Theorem replay_dropped clock sock m s es clock' sock' :
  envelope_rejected s m = false →
  (length es ≤ 9)%nat →
  let s1 := run es (msgHandler clock sock m s) in
  msgHandler clock' sock' m s1 = s1.
Proof.
  intros He Hlen s1. unfold msgHandler at 1.
  assert (Hin : m_id m ∈ buf s1).
  { pose proof (msgHandler_wire clock sock m s He) as Hw.
    destruct (remember_id_snoc (m_id m) (buf s)) as [pre Hpre].
    apply (run_keeps_id _ _ _ pre []); [|simpl; lia].
    unfold wire in Hw. simplify_eq. by rewrite <- Hpre. }
  unfold envelope_rejected. rewrite (bool_decide_eq_true_2 _ Hin).
  by rewrite !orb_true_r.
Qed.

(** X10. A message that passes the guard of the handler is written once to
    every open socket other than the one it came from, whatever the
    [switch] then does with it, an exception included; the socket it came
    from gets the [key] of the message, and no other socket changes. *)
Theorem flood_fill clock sock m s :
  envelope_rejected s m = false →
  let s' := msgHandler clock sock m s in
  forwarded s'
  = forwarded s
    ++ ((λ k, (s_id k, m))
          <$> filter (λ k, s_open k = true ∧ s_id k ≠ sock) (sockets s))
  ∧ sockets s'
    = (λ k, if decide (s_id k = sock)
            then mkSocket (s_id k) (s_open k) (Some (m_key m)) else k)
        <$> sockets s.
Proof.
  intros He s'. pose proof (msgHandler_wire clock sock m s He) as Hw.
  unfold wire in Hw. by simplify_eq.
Qed.

(** X11. A VALIDATORS, VALIDATOR, HELLO_VALIDATOR or TRANSACTION message
    whose sender has no account, or a stake below [minStake], is gossiped
    and has no other effect on the node. *)
Theorem unstaked_sender_ignored clock sock m s :
  envelope_rejected s m = false →
  isValidator s m = true →
  (m_body m = VALIDATORS
   ∨ (∃ data, m_body m = VALIDATOR data)
   ∨ (∃ data, m_body m = HELLO_VALIDATOR data)
   ∨ (∃ tx valid root, m_body m = TRANSACTION tx valid root)) →
  msgHandler clock sock m s = gossip sock m s.
Proof.
  intros He Hv Hb. unfold msgHandler. rewrite He.
  unfold try_catch, dispatch. rewrite bind_get_state.
  assert (Hv' : isValidator (gossip sock m s) m = true) by exact Hv.
  destruct Hb as [->|[[data ->]|[[data ->]|(tx & valid & root & ->)]]];
    rewrite ?Hv'; try reflexivity.
  unfold handle_TRANSACTION, count_vote, merkle, mbind, M_bind, get_state.
  destruct (vote (gossip sock m s)); [|reflexivity].
  destruct (String.eqb root ""); [reflexivity|].
  destruct (getRoot _); [|reflexivity].
  rewrite Hv', orb_true_r. reflexivity.
Qed.

(** *** The vote timeout *)

Lemma inv_bind {A B} (c : M A) (f : A → M B) :
  inv_preserved c → (∀ a, inv_preserved (f a)) → inv_preserved (c ≫= f).
Proof.
  intros Hc Hf s Hs. unfold mbind, M_bind. specialize (Hc s Hs).
  destruct (c s) as [s' [a|]]; simpl in *; [|done]. by apply Hf.
Qed.

Lemma timer_inv_keeps s s' :
  keeps slot_timer s s' → timer_inv s → timer_inv s'.
Proof.
  unfold keeps, slot_timer, timer_inv. intros Hk Hs. simplify_eq.
  destruct Hs as [Hs|(tm & ? & ? & ?)]; [left|right; exists tm];
    repeat split; congruence.
Qed.

Lemma inv_keeps {A} (c : M A) :
  preserves (keeps slot_timer) c → inv_preserved c.
Proof. intros Hc s. apply timer_inv_keeps, Hc. Qed.

Ltac timer_frame :=
  unfold handle_CHAIN, adopt_plurality, count_vote, connectSocket, on_close,
    on_started;
  handler_frame ledger_grows_slot_timer keeps_leaf.

Lemma handle_CHAIN_timer clock m transactions root :
  preserves (keeps slot_timer) (handle_CHAIN clock m transactions root).
Proof. timer_frame. Qed.

Lemma count_vote_timer m tx valid root :
  preserves (keeps slot_timer) (count_vote m tx valid root).
Proof. timer_frame. Qed.

Lemma connectSocket_timer sock :
  preserves (keeps slot_timer) (connectSocket sock).
Proof. timer_frame. Qed.

Lemma on_close_timer sock : preserves (keeps slot_timer) (on_close sock).
Proof. timer_frame. Qed.

Lemma on_started_timer clock : preserves (keeps slot_timer) (on_started clock).
Proof. timer_frame. Qed.

(** The part of [tally] before the close-out. *)
Lemma tally_split clock t keys s :
  ∃ c : M unit,
    preserves (keeps slot_timer) c
    ∧ preserves (keeps pendingTxs) c
    ∧ tally clock t keys s = (c ≫= λ _, closeout clock) s.
Proof.
  exists (s ← get_state;
          let own := (transactionValid s t false (clock 0%nat)).1 in
          modify (set_consensus
                    (obj_set (publicKey s) (ESelf t own) (consensus s)));;
          s ← get_state;
          if majority (entry_valid <$> (consensus s).*2)
          then commit t keys else mret tt).
  split; [timer_frame|]. split.
  - handler_frame ledger_grows_pending keeps_leaf.
  - unfold tally, mbind, M_bind, get_state, modify. simpl.
    by repeat case_match.
Qed.

(** When [closeout] is over, no timer is pending. *)
Lemma closeout_timers clock s :
  timer_inv s → timers (closeout clock s).1 = [].
Proof.
  intros Hs.
  assert (Hf : match voteTimeout s with
               | Some h => filter (λ tm, timer_id tm ≠ h) (timers s)
               | None => timers s
               end = []).
  { destruct Hs as [->|(tm & -> & -> & _)]; [by case_match|].
    rewrite filter_cons. by case_decide. }
  unfold closeout, close_voteTimeout, merkle, send, modify, get_state,
    mbind, M_bind, mret, M_ret.
  simpl.
  destruct (voteTimeout s) as [h|] eqn:Hh;
    destruct (pendingTxs s) as [|tx rest] eqn:Hp; simpl; rewrite ?Hp; simpl;
    try destruct (getRoot _) as [root|]; simpl; done.
Qed.

Lemma closeout_inv clock : inv_preserved (closeout clock).
Proof. intros s Hs. left. by apply closeout_timers. Qed.

Lemma tally_inv_preserved clock t keys : inv_preserved (tally clock t keys).
Proof.
  intros s Hs. destruct (tally_split clock t keys s) as (c & Hc & _ & ->).
  apply inv_bind; [by apply inv_keeps|intros _; apply closeout_inv|done].
Qed.

Lemma getVoteTimeout_inv s :
  vote s ≠ None → timers s = [] → timer_inv (getVoteTimeout s).1.
Proof.
  intros Hv Ht. right. eexists. simpl. rewrite Ht. simpl. done.
Qed.

Lemma idle_no_timer s : timer_inv s → vote s = None → timers s = [].
Proof. intros [?|(tm & _ & _ & ?)] ?; done. Qed.

Lemma handle_NEW_TRANSACTION_inv clock data :
  inv_preserved (handle_NEW_TRANSACTION clock data).
Proof.
  intros s Hs. unfold handle_NEW_TRANSACTION.
  destruct (deserialize data) as [t|]; [|done].
  rewrite bind_get_state. destruct (vote s) eqn:Hv.
  - revert Hs. by apply timer_inv_keeps.
  - pose proof (idle_no_timer s Hs Hv) as Ht.
    unfold merkle, mbind, M_bind. destruct (getRoot _); [|done].
    by apply getVoteTimeout_inv.
Qed.

Lemma sendTransaction_inv t : inv_preserved (sendTransaction t).
Proof.
  intros s Hs. unfold sendTransaction. rewrite bind_get_state.
  destruct (vote s) eqn:Hv.
  - revert Hs. by apply timer_inv_keeps.
  - pose proof (idle_no_timer s Hs Hv) as Ht.
    apply (timer_inv_keeps (getVoteTimeout
             (set_consensus [] (set_vote (Some t) s))).1); [done|].
    by apply getVoteTimeout_inv.
Qed.

Lemma on_timeout_inv clock tm s :
  timer_inv s → tm ∈ timers s → timer_inv (on_timeout clock tm s).1.
Proof.
  intros Hs Hin.
  destruct Hs as [Hs|(tm' & Hs & Hh & Hv)].
  { rewrite Hs in Hin. by apply not_elem_of_nil in Hin. }
  rewrite Hs in Hin. apply list_elem_of_singleton in Hin as ->.
  unfold on_timeout, merkle, send, modify, get_state, mbind, M_bind.
  simpl. rewrite Hs. rewrite filter_cons. case_decide; [done|]. simpl.
  destruct (vote s) as [v|] eqn:Hvs; [|done].
  destruct (getRoot _); simpl; [|by left].
  right. eexists. simpl. by rewrite Hvs.
Qed.

Lemma dispatch_inv clock m : inv_preserved (dispatch clock m).
Proof.
  unfold dispatch. apply inv_bind; [by apply inv_keeps, (preserves_get _)|].
  intros s. destruct (m_body m) eqn:E;
    try solve [apply inv_keeps; timer_frame].
  - apply handle_NEW_TRANSACTION_inv.
  - unfold handle_TRANSACTION. apply inv_bind.
    + apply inv_keeps, count_vote_timer.
    + intros [[v keys]|]; [apply tally_inv_preserved|].
      by apply inv_keeps, (preserves_ret _).
Qed.

Lemma step_timer_inv e s : timer_inv s → timer_inv (step e s).
Proof.
  intros Hs. destruct e as [sock|clock sock m|sock|t|clock id|clock];
    unfold step.
  - by apply (inv_keeps _ (connectSocket_timer sock)).
  - unfold msgHandler. destruct (envelope_rejected s m); [done|].
    apply dispatch_inv. revert Hs. by apply timer_inv_keeps.
  - by apply (inv_keeps _ (on_close_timer sock)).
  - by apply sendTransaction_inv.
  - destruct (list_find _ _) as [[i tm]|] eqn:Hf; [|done].
    apply list_find_Some in Hf as (Hin & _ & _).
    apply on_timeout_inv; [done|]. by eapply list_elem_of_lookup_2.
  - by apply (inv_keeps _ (on_started_timer clock)).
Qed.

Lemma reachable_timer_inv s : reachable s → timer_inv s.
Proof.
  induction 1 as [txs accs pk|e s _ IH]; [by left|]. by apply step_timer_inv.
Qed.

(** X12. In every state the node reaches at most one vote timer is pending;
    it is the one that [this.voteTimeout] refers to, and a vote is open
    while it is pending, so its callback finds [this.vote] set. *)
Theorem one_vote_timer s :
  reachable s →
  timers s = []
  ∨ ∃ tm, timers s = [tm] ∧ voteTimeout s = Some (timer_id tm)
          ∧ vote s ≠ None.
Proof.
  induction 1 as [txs accs pk|e s _ IH]; [by left|].
  by apply (step_timer_inv e s).
Qed.

Lemma count_vote_pending m tx valid root :
  preserves (keeps pendingTxs) (count_vote m tx valid root).
Proof. unfold count_vote. handler_frame ledger_grows_pending keeps_leaf. Qed.

(** X13. When a tally runs to its end while a transaction is pending, that
    transaction becomes the vote and the rest stays queued, and no timer
    is pending afterwards: the tally cancels the timer of the closed slot
    and arms none for the new one, so no timeout fires for it. *)
Theorem promoted_vote_has_no_timer
    clock sock m tx valid root s s1 v keys next rest :
  reachable s →
  envelope_rejected s m = false →
  m_body m = TRANSACTION tx valid root →
  count_vote m tx valid root (gossip sock m s)
  = (s1, Returns (Some (v, keys))) →
  (tally clock v keys s1).2 = Returns tt →
  pendingTxs s = next :: rest →
  let s' := msgHandler clock sock m s in
  vote s' = Some next ∧ pendingTxs s' = rest ∧ timers s' = []
  ∧ ∀ clock' id, step (ETimeout clock' id) s' = s'.
Proof.
  intros Hr He Hb Hc Ht Hp s'.
  assert (Hs' : s' = (tally clock v keys s1).1).
  { subst s'. unfold msgHandler. rewrite He.
    unfold try_catch, dispatch. rewrite bind_get_state, Hb.
    unfold handle_TRANSACTION. by rewrite (bind_returns _ _ _ _ _ Hc). }
  pose proof (count_vote_timer m tx valid root (gossip sock m s)) as Hk.
  pose proof (count_vote_pending m tx valid root (gossip sock m s)) as Hq.
  rewrite Hc in Hk, Hq. simpl in Hk, Hq.
  assert (Hi : timer_inv s1).
  { apply (timer_inv_keeps (gossip sock m s)); [done|].
    apply (timer_inv_keeps s); [done|]. by apply reachable_timer_inv. }
  destruct (tally_split clock v keys s1) as (c & Hct & Hcp & Heq).
  rewrite Heq in Ht, Hs'. specialize (Hct s1). specialize (Hcp s1).
  unfold mbind, M_bind in Ht, Hs'.
  destruct (c s1) as [s2 [[]|]]; [|done]. simpl in Hct, Hcp.
  pose proof (closeout_returns clock s2 Ht) as [_ Hcl].
  unfold keeps in Hcp, Hq. rewrite Hcp, Hq in Hcl.
  change (pendingTxs (gossip sock m s)) with (pendingTxs s) in Hcl.
  rewrite Hp in Hcl. destruct Hcl as (Hv & Hrest & _).
  assert (Htm : timers s' = []).
  { rewrite Hs'. apply closeout_timers. by apply (timer_inv_keeps s1). }
  rewrite Hs'. split; [done|]. split; [done|]. rewrite <- Hs'.
  split; [done|]. intros clock' id. unfold step. by rewrite Htm.
Qed.

End Ledger.

(** ** Validity, replay and the validators root *)

Section Validity.
Context `{Primitives}.

(** Outside the genesis override, what [transactionValid] accepts. *)
Lemma transactionValid_accepts s t now nowSec :
  (length (chain_transactions s) <? 6)%nat && String.eqb (tx_body t) "GENESIS"
  = false →
  (transactionValid s t now nowSec).1 = true
  ↔ tx_verify t = true
    ∧ tx_timestamp t ≤ nowSec + timestampRange
    ∧ fee ≤ tx_amount t
    ∧ (∃ a, chain_accounts s !! tx_from t = Some a
            ∧ tx_amount t ≤ balance a
            ∧ (now = true → tx_nonce t = nonce a))
    ∧ (now = true →
       timestampRange + Z.of_nat (length (pendingTxs s)) * 10
       ≤ tx_timestamp t).
Proof.
  intros Hg. unfold transactionValid. rewrite Hg.
  change (maxVoteTime / 1000) with 10.
  destruct (chain_accounts s !! tx_from t) as [a|] eqn:Ha.
  - destruct (Z.ltb_spec (nowSec + timestampRange) (tx_timestamp t));
      destruct (Z.ltb_spec (tx_timestamp t)
                  (timestampRange + Z.of_nat (length (pendingTxs s)) * 10));
      destruct (Z.ltb_spec (tx_amount t) fee);
      destruct (Z.ltb_spec (balance a) (tx_amount t));
      destruct (Z.eqb_spec (tx_nonce t) (nonce a));
      destruct now; destruct (tx_verify t); simpl; (split; [intros Hv|]);
      try discriminate Hv;
      try (intros (?&?&?&(a'&?&?&Hn)&Hx); simplify_eq;
           try specialize (Hn eq_refl); try specialize (Hx eq_refl);
           first [done|lia]);
      (split; [done|]; split; [lia|]; split; [lia|];
       split; [exists a; split; [done|]; split; [lia|done]|intros; lia]).
  - destruct now; simpl.
    + split; [done|]. by intros (_&_&_&(a&?&_)&_).
    + rewrite !orb_true_r. simpl. split; [done|].
      by intros (_&_&_&(a&?&_)&_).
Qed.

Lemma transactionValid_reasons s t now nowSec :
  ((transactionValid s t now nowSec).1 = true →
   (transactionValid s t now nowSec).2 = [])
  ∧ ((transactionValid s t now nowSec).1 = false →
     (transactionValid s t now nowSec).2 = [] → tx_verify t = false).
Proof.
  unfold transactionValid. change (maxVoteTime / 1000) with 10.
  destruct ((length (chain_transactions s) <? 6)%nat
            && String.eqb (tx_body t) "GENESIS").
  { destruct (chain_accounts s !! tx_from t), now; by simpl. }
  destruct (chain_accounts s !! tx_from t) as [a|] eqn:Ha.
  - destruct (nowSec + timestampRange <? tx_timestamp t);
      destruct (tx_timestamp t
                <? timestampRange + Z.of_nat (length (pendingTxs s)) * 10);
      destruct (tx_amount t <? fee);
      destruct (balance a <? tx_amount t);
      destruct (tx_nonce t =? nonce a);
      destruct now; destruct (tx_verify t); by simpl.
  - destruct now; simpl; [done|]. rewrite !orb_true_r. simpl.
    split; [done|]. intros _.
    destruct (nowSec + timestampRange <? tx_timestamp t);
      destruct (tx_amount t <? fee); by simpl.
Qed.

(** X14. Outside the genesis override (fewer than six records and the body
    ["GENESIS"]), [transactionValid(t, now)] accepts [t] exactly when the
    signature verifies, the timestamp is at most [timestampRange] seconds
    ahead of the clock, the amount is at least [fee], and the sender has an
    account whose balance covers the amount; with [now] set, also when the
    nonce is that of the account and the timestamp is at least
    [timestampRange + 10 * pendingTxs.length]. An accepted transaction
    comes with no reason, and a rejected one comes without a reason only
    when its signature does not verify. *)
Theorem transactionValid_characterised s t now nowSec :
  (length (chain_transactions s) <? 6)%nat && String.eqb (tx_body t) "GENESIS"
  = false →
  ((transactionValid s t now nowSec).1 = true
   ↔ tx_verify t = true
     ∧ tx_timestamp t ≤ nowSec + timestampRange
     ∧ fee ≤ tx_amount t
     ∧ (∃ a, chain_accounts s !! tx_from t = Some a
             ∧ tx_amount t ≤ balance a
             ∧ (now = true → tx_nonce t = nonce a))
     ∧ (now = true →
        timestampRange + Z.of_nat (length (pendingTxs s)) * 10
        ≤ tx_timestamp t))
  ∧ ((transactionValid s t now nowSec).1 = true →
     (transactionValid s t now nowSec).2 = [])
  ∧ ((transactionValid s t now nowSec).1 = false →
     (transactionValid s t now nowSec).2 = [] → tx_verify t = false).
Proof.
  intros Hg. split; [by apply transactionValid_accepts|].
  apply transactionValid_reasons.
Qed.

(** *** Replay and overdraft *)

#[local] Instance keeps_solvent_preorder : PreOrder keeps_solvent.
Proof.
  split.
  - intros s Hs. exact Hs.
  - intros s1 s2 s3 H1 H2 Hs. apply H2, H1, Hs.
Qed.

Lemma update_account_solvent k f :
  (∀ a, 0 ≤ balance a → 0 ≤ balance (f a)) →
  preserves keeps_solvent (update_account k f).
Proof.
  intros Hf s. unfold update_account.
  destruct (chain_accounts s !! k) as [a|] eqn:Ha; [|reflexivity].
  intros Hs. unfold solvent in *. simpl.
  apply map_Forall_insert_2; [|done]. apply Hf. by apply (Hs k).
Qed.

Lemma ensure_account_solvent k : preserves keeps_solvent (ensure_account k).
Proof.
  intros s. unfold ensure_account, modify. simpl.
  destruct (chain_accounts s !! k) as [a|] eqn:Ha; [reflexivity|].
  intros Hs. unfold solvent in *. simpl. by apply map_Forall_insert_2.
Qed.

Lemma merkle_add_solvent t : preserves keeps_solvent (merkle_add t).
Proof. intros s Hs. exact Hs. Qed.

Lemma replay_rewards_solvent n entries :
  preserves keeps_solvent (replay_rewards n entries).
Proof.
  induction entries as [|[v b] rest IH]; simpl.
  - apply (preserves_ret _).
  - apply (preserves_bind _); [|by intros _].
    destruct (loose_eq_false b); apply update_account_solvent; simpl; [done|].
    intros a Ha. assert (0 ≤ fee / Z.of_nat n); [|lia].
    destruct (decide (Z.of_nat n = 0)) as [->|]; [by rewrite Z.div_0_r|].
    apply Z.div_pos; unfold fee; lia.
Qed.

Lemma replay_record_solvent nowSec i r s :
  tx_body (r_transaction r) ≠ "GENESIS" →
  solvent s → solvent (replay_record nowSec i r s).1.
Proof.
  intros Hb Hs. unfold replay_record. cbv zeta. rewrite bind_get_state.
  set (t := r_transaction r) in *.
  assert (Hg : String.eqb (tx_body t) "GENESIS" = false)
    by by apply String.eqb_neq.
  unfold replay_gate. rewrite Hg, andb_false_r.
  destruct (transactionValid s t false nowSec).1 eqn:Hv; [|done].
  apply transactionValid_accepts in Hv
    as (_ & _ & Hfee & (a & Ha & Hbal & _) & _);
    [|by rewrite Hg, andb_false_r].
  simpl.
  assert (Hd : keeps_solvent s (replay_debit i t s).1
               ∧ ∃ s1, replay_debit i t s = (s1, Returns tt)).
  { unfold replay_debit.
    destruct (negb _); [|split; [by intros ?|by eexists]].
    unfold ensure_account, update_account, modify, mbind, M_bind. simpl.
    rewrite Ha. simpl. rewrite Ha. split; [|by eexists].
    intros _. unfold solvent in *. simpl.
    apply map_Forall_insert_2; [simpl; lia|done]. }
  destruct Hd as [Hd [s1 Hs1]]. rewrite Hs1 in Hd. simpl in Hd.
  rewrite (bind_returns _ _ _ _ _ Hs1).
  revert Hd. generalize s1. clear Hs1 s1.
  enough (Hp : preserves keeps_solvent
                 (replay_credit t;;
                  (if negb (data_is_genesis t && (i <? 6)%nat)
                      && String.eqb (r_validatorsRoot r)
                           (hash_validators (r_validators r))
                   then
                     replay_rewards (length (r_validators r)) (r_validators r);;
                     update_account (tx_from t) incr_nonce
                   else mret tt);;
                  merkle_add t;; mret true)).
  { intros s1 Hd. apply Hp, Hd, Hs. }
  unfold replay_credit.
  repeat first
    [ apply replay_rewards_solvent | apply ensure_account_solvent
    | apply merkle_add_solvent
    | apply update_account_solvent; simpl; intros; unfold fee in *; lia
    | frame_step ].
Qed.

Lemma createAccState_from_solvent clock recs : ∀ k i s,
  Forall (λ r, tx_body (r_transaction r) ≠ "GENESIS") recs →
  solvent s → solvent (createAccState_from clock k i recs s).1.
Proof.
  induction recs as [|r rest IH]; intros k i s Hb Hs; simpl; [done|].
  apply Forall_cons in Hb as [Hr Hrest].
  pose proof (replay_record_solvent (clock k) i r s Hr Hs) as Hs1.
  unfold mbind, M_bind.
  destruct (replay_record (clock k) i r s) as [s1 [applied|]]; [|done].
  by apply IH.
Qed.

(** X15. When no account is overdrawn, the replay of records none of which
    has the body ["GENESIS"] leaves no account overdrawn, whether it
    returns or throws. *)
Theorem replay_never_overdraws clock recs s :
  Forall (λ r, tx_body (r_transaction r) ≠ "GENESIS") recs →
  solvent s → solvent (createAccState clock recs s).1.
Proof.
  intros Hb Hs. unfold createAccState, mbind, M_bind.
  pose proof (createAccState_from_solvent clock recs 0 0 s Hb Hs) as Hs1.
  by destruct (createAccState_from clock 0 0 recs s) as [s1 [i|]].
Qed.

End Validity.

(** ** The order of [sort] *)

Lemma ltb_compare x y : String.ltb x y = true ↔ String.compare x y = Lt.
Proof. unfold String.ltb. by destruct (String.compare x y). Qed.

#[local] Instance str_le_trans : Transitive str_le.
Proof.
  intros x y z Hxy Hyz. unfold str_le in *.
  destruct (String.ltb z x) eqn:Hzx; [|done].
  destruct (String.compare y x) eqn:Hyx.
  - apply String.compare_eq_iff in Hyx as ->. congruence.
  - apply ltb_compare in Hyx. congruence.
  - assert (Hlt : String.compare x y = Lt).
    { rewrite String.compare_antisym, Hyx. done. }
    apply ltb_compare in Hzx.
    apply OrderedTypeEx.String_as_OT.cmp_lt in Hzx, Hlt.
    pose proof (OrderedTypeEx.String_as_OT.lt_trans _ _ _ Hzx Hlt) as Hzy.
    apply OrderedTypeEx.String_as_OT.cmp_lt, ltb_compare in Hzy. congruence.
Qed.

#[local] Instance str_le_antisym : AntiSymm (=) str_le.
Proof.
  intros x y Hxy Hyx. unfold str_le in *.
  destruct (String.compare x y) eqn:Hc.
  - by apply String.compare_eq_iff.
  - apply ltb_compare in Hc. congruence.
  - assert (Hlt : String.compare y x = Lt).
    { rewrite String.compare_antisym, Hc. done. }
    apply ltb_compare in Hlt. congruence.
Qed.

Lemma str_le_total x y : str_le x y ∨ str_le y x.
Proof.
  unfold str_le. destruct (String.ltb y x) eqn:Hyx; [|by left]. right.
  destruct (String.ltb x y) eqn:Hxy; [|done].
  apply ltb_compare in Hyx, Hxy.
  rewrite String.compare_antisym, Hxy in Hyx. done.
Qed.

Lemma sort_insert_perm x l : sort_insert x l ≡ₚ x :: l.
Proof.
  induction l as [|y l IH]; simpl; [done|].
  destruct (String.ltb x y); [done|]. rewrite IH. apply Permutation_swap.
Qed.

Lemma sort_insert_sorted x l :
  Sorted str_le l → Sorted str_le (sort_insert x l).
Proof.
  induction 1 as [|y l Hl IH Hhd]; simpl; [by repeat constructor|].
  destruct (String.ltb x y) eqn:Hxy.
  - constructor; [by constructor|]. constructor.
    destruct (str_le_total x y) as [?|Hyx]; [done|].
    unfold str_le in Hyx. congruence.
  - constructor; [done|].
    destruct Hhd as [|z l Hyz]; simpl.
    + by constructor.
    + destruct (String.ltb x z); by constructor.
Qed.

Lemma sort_strings_spec l :
  Sorted str_le (sort_strings l) ∧ sort_strings l ≡ₚ l.
Proof.
  unfold sort_strings.
  enough (Hg : ∀ acc, Sorted str_le acc →
            Sorted str_le (foldl (λ acc x, sort_insert x acc) acc l)
            ∧ foldl (λ acc x, sort_insert x acc) acc l ≡ₚ acc ++ l).
  { apply (Hg []). constructor. }
  induction l as [|x l IH]; intros acc Hacc; simpl.
  - by rewrite app_nil_r.
  - destruct (IH (sort_insert x acc)) as [Hs Hp];
      [by apply sort_insert_sorted|].
    split; [done|]. rewrite Hp, sort_insert_perm.
    apply Permutation_middle.
Qed.

Lemma sort_strings_perm l l' : l ≡ₚ l' → sort_strings l = sort_strings l'.
Proof.
  intros Hp. destruct (sort_strings_spec l) as [Hs1 Hp1].
  destruct (sort_strings_spec l') as [Hs2 Hp2].
  apply (Sorted_unique str_le); [done|done|]. by rewrite Hp1, Hp2.
Qed.

Lemma fmap_const_perm {A} (c : string) (l l' : list A) :
  l ≡ₚ l' → (λ _, c) <$> l = (λ _, c) <$> l'.
Proof.
  induction 1 as [|x l l' _ IH|x y l|l1 l2 l3 _ IH1 _ IH2];
    [done|rewrite !fmap_cons; by f_equal|by rewrite !fmap_cons|by etrans].
Qed.

Section ValidatorsRoot.
Context `{Primitives}.

(** X16. The hash that [validatorsRoot] holds depends on the keys of the
    voters and on the votes cast, each up to order, and not on who cast
    which vote: two vote tables with the same keys and the same votes have
    the same hash. *)
Theorem validatorsRoot_ignores_assignment
    (v v' : list (string * option JsValid)) :
  v.*1 ≡ₚ v'.*1 → v.*2 ≡ₚ v'.*2 →
  hash_validators v = hash_validators v'.
Proof.
  intros Hk Hv. unfold hash_validators, sorted_values.
  rewrite (sort_strings_perm _ _ Hk).
  rewrite (sort_strings_perm (valid_str <$> omap id v.*2)
                             (valid_str <$> omap id v'.*2))
    by by rewrite Hv.
  rewrite (fmap_const_perm "" (filter (λ x, x = None) v.*2)
                              (filter (λ x, x = None) v'.*2))
    by by rewrite Hv.
  done.
Qed.

End ValidatorsRoot.

(** ** The accept path *)

Lemma obj_get_set_eq {A} k (v : A) o : obj_get k (obj_set k v o) = Some v.
Proof.
  induction o as [|[k' v'] o IH]; simpl; [by rewrite String.eqb_refl|].
  destruct (String.eqb k k') eqn:E; simpl; [by rewrite String.eqb_refl|].
  by rewrite E.
Qed.

Lemma obj_get_set_ne {A} k k' (v : A) o :
  k ≠ k' → obj_get k (obj_set k' v o) = obj_get k o.
Proof.
  intros Hne. induction o as [|[k0 v0] o IH]; simpl.
  - by apply String.eqb_neq in Hne as ->.
  - destruct (String.eqb k' k0) eqn:E; simpl.
    + apply String.eqb_eq in E as <-. by apply String.eqb_neq in Hne as ->.
    + by rewrite IH.
Qed.

Lemma obj_get_key {A} k (o : list (string * A)) :
  k ∈ o.*1 → is_Some (obj_get k o).
Proof.
  induction o as [|[k' v'] o IH]; simpl; [by intros ?%elem_of_nil|].
  intros [->|Hin]%elem_of_cons.
  - by rewrite String.eqb_refl.
  - destruct (String.eqb k k'); [done|by apply IH].
Qed.

Section Accept.
Context `{Primitives}.

Lemma update_account_returns k f s :
  is_Some (chain_accounts s !! k) →
  ∃ s', update_account k f s = (s', Returns tt).
Proof. intros [a Ha]. unfold update_account. rewrite Ha. by eexists. Qed.

Lemma ensure_account_returns k s :
  ∃ s', ensure_account k s = (s', Returns tt)
        ∧ is_Some (chain_accounts s' !! k).
Proof.
  eexists. split; [reflexivity|]. simpl.
  destruct (chain_accounts s !! k) eqn:E; simpl; [by rewrite E|].
  by rewrite lookup_insert_eq.
Qed.

Lemma replay_grows_account s s' k :
  replay_grows s s' →
  is_Some (chain_accounts s !! k) → is_Some (chain_accounts s' !! k).
Proof.
  intros [(_&_&Hk&_) _]. rewrite <- !elem_of_dom. apply Hk.
Qed.

Lemma replay_grows_consensus s s' :
  replay_grows s s' → consensus s' = consensus s.
Proof. intros [(Hn&_) _]. unfold same_node in Hn. by destruct_and!. Qed.

Lemma replay_grows_key s s' :
  replay_grows s s' → publicKey s' = publicKey s.
Proof. intros [(Hn&_) _]. unfold same_node in Hn. by destruct_and!. Qed.

(** A piece of the accept path that returns, with what it maintains. *)
Lemma step_returns (c : M unit) s :
  preserves replay_grows c →
  (∃ s', c s = (s', Returns tt)) →
  ∃ s', c s = (s', Returns tt) ∧ replay_grows s s'.
Proof.
  intros Hp [s' Hs']. exists s'. split; [done|].
  specialize (Hp s). by rewrite Hs' in Hp.
Qed.

Lemma commit_rewards_returns n vs : ∀ s,
  Forall (λ k, is_Some (obj_get k (consensus s))) vs →
  ∃ s', commit_rewards n vs s = (s', Returns tt).
Proof.
  induction vs as [|k vs IH]; intros s Hc; simpl; [by eexists|].
  apply Forall_cons in Hc as [[e He] Hrest]. rewrite bind_get_state.
  match goal with
  | |- ∃ s', (?c ≫= _) s = _ =>
      destruct (step_returns c s) as (s1 & Hs1 & Hg)
  end.
  - destruct (chain_accounts s !! k) eqn:Ha;
      [|apply (preserves_ret _)].
    rewrite He. destruct (loose_ne_true _); apply update_account_grows.
  - destruct (chain_accounts s !! k) eqn:Ha; [|by eexists].
    rewrite He.
    destruct (loose_ne_true _); apply update_account_returns; by rewrite Ha.
  - rewrite (bind_returns _ _ _ _ _ Hs1). apply IH.
    by rewrite (replay_grows_consensus _ _ Hg).
Qed.

(** The accept path returns when its debit does, and appends the record
    of the votes in [consensus]. *)
Lemma commit_returns t keys s :
  is_Some (chain_accounts s !! tx_from t)
  ∨ String.eqb (tx_from t) "GENESIS"
    && (length (chain_transactions s) <? 6)%nat = true →
  Forall (λ k, is_Some (obj_get k (consensus s))) (keys ++ [publicKey s]) →
  let votes := (λ kv, (kv.1, entry_valid kv.2)) <$> consensus s in
  ∃ s', commit t keys s = (s', Returns tt)
        ∧ chain_transactions s'
          = chain_transactions s
            ++ [mkRecord t votes (hash_validators votes)].
Proof.
  intros Hfrom Hcons votes. unfold commit. rewrite bind_get_state. cbv zeta.
  (* the debit *)
  match goal with
  | |- ∃ s', (?c ≫= _) s = _ ∧ _ =>
      destruct (step_returns c s) as (sa & Ha & Hga)
  end.
  { destruct (negb _); [apply update_account_grows|apply (preserves_ret _)]. }
  { destruct Hfrom as [Hfrom| ->]; [|by eexists].
    destruct (negb _); [by apply update_account_returns|by eexists]. }
  rewrite (bind_returns _ _ _ _ _ Ha).
  (* the account of the sender *)
  destruct (ensure_account_returns (tx_from t) sa) as (sb & Hb & Hdom).
  pose proof (ensure_account_grows (tx_from t) sa) as Hgb.
  rewrite Hb in Hgb. simpl in Hgb.
  rewrite (bind_returns _ _ _ _ _ Hb).
  (* the credit *)
  match goal with
  | |- ∃ s', (?c ≫= _) sb = _ ∧ _ =>
      destruct (step_returns c sb) as (sc & Hc & Hgc)
  end.
  { destruct (negb (String.eqb (tx_to t) "stake"));
      [|apply update_account_grows].
    apply (preserves_bind _); [apply ensure_account_grows|].
    intros _. apply update_account_grows. }
  { destruct (negb (String.eqb (tx_to t) "stake"));
      [|by apply update_account_returns].
    destruct (ensure_account_returns (tx_to t) sb) as (sb' & Hb' & Hdom').
    rewrite (bind_returns _ _ _ _ _ Hb').
    by apply update_account_returns. }
  rewrite (bind_returns _ _ _ _ _ Hc).
  assert (Hsc : replay_grows s sc) by (etrans; [|done]; by etrans).
  (* the rewards *)
  match goal with
  | |- ∃ s', (?c ≫= _) sc = _ ∧ _ =>
      destruct (step_returns c sc) as (sd & Hd & Hgd)
  end.
  { destruct (negb (data_is_genesis t && _)); [|apply (preserves_ret _)].
    apply (preserves_bind _); [apply commit_rewards_grows|].
    intros _. apply update_account_grows. }
  { destruct (negb (data_is_genesis t && _)); [|by eexists].
    destruct (step_returns
                (commit_rewards (length (keys ++ [publicKey s]))
                                (keys ++ [publicKey s])) sc)
      as (sr & Hr & Hgr).
    { apply commit_rewards_grows. }
    { apply commit_rewards_returns.
      by rewrite (replay_grows_consensus _ _ Hsc). }
    rewrite (bind_returns _ _ _ _ _ Hr).
    apply update_account_returns.
    apply (replay_grows_account sb); [by etrans|done]. }
  rewrite (bind_returns _ _ _ _ _ Hd).
  assert (Hsd : replay_grows s sd) by by etrans.
  (* the record *)
  rewrite bind_get_state. eexists. split; [reflexivity|]. simpl.
  subst votes. rewrite (replay_grows_consensus _ _ Hsd).
  destruct Hsd as [_ ->]. done.
Qed.

Lemma count_vote_quorum m tx valid root s s1 v keys :
  count_vote m tx valid root s = (s1, Returns (Some (v, keys))) →
  vote s = Some v ∧ keys = (consensus s1).*1
  ∧ (size (validators s) ≤ length (consensus s1))%nat
  ∧ publicKey s1 = publicKey s
  ∧ isValidator s m = false
  ∧ merkle s = (s, Returns (Some root)).
Proof.
  unfold count_vote, merkle, mbind, M_bind, get_state, modify, throw, mret,
    M_ret.
  intros Hc. repeat case_match; simplify_eq; simpl in *.
  all: repeat match goal with
       | H : _ || _ = false |- _ => apply orb_false_iff in H as [? ?]
       | H : negb _ = false |- _ => apply negb_false_iff in H
       | H : bool_decide _ = true |- _ => apply bool_decide_eq_true in H
       | H : (_ <=? _)%nat = true |- _ => apply Nat.leb_le in H
       end; simplify_eq; done.
Qed.

(** X17. A TRANSACTION message brings the node to the tally, in state [s1]
    with candidate [v]. The candidate is then the open vote and
    [consensus] holds at least as many votes as there are validators.
    When the votes counted, the node's own included, hold strictly more
    [true] than [false], and the sender of [v] has an account or is the
    genesis sender of the first six records, the handler appends exactly
    one record to the chain: the candidate, the vote of every key in
    [consensus] with the node's own, and the hash of these votes. *)
Theorem accepted_slot_appends_record
    clock sock m tx valid root s s1 v keys :
  envelope_rejected s m = false →
  m_body m = TRANSACTION tx valid root →
  count_vote m tx valid root (gossip sock m s)
  = (s1, Returns (Some (v, keys))) →
  majority (votes_at_tally clock v s1) = true →
  is_Some (chain_accounts s !! tx_from v)
  ∨ String.eqb (tx_from v) "GENESIS"
    && (length (chain_transactions s) <? 6)%nat = true →
  let s' := msgHandler clock sock m s in
  let votes :=
    (λ kv, (kv.1, entry_valid kv.2))
      <$> obj_set (publicKey s)
            (ESelf v (transactionValid s1 v false (clock 0%nat)).1)
            (consensus s1) in
  vote s = Some v
  ∧ (size (validators s) ≤ length (consensus s1))%nat
  ∧ chain_transactions s'
    = chain_transactions s ++ [mkRecord v votes (hash_validators votes)].
Proof.
  intros He Hb Hc Hmaj Hfrom s' votes.
  assert (Hs' : s' = (tally clock v keys s1).1).
  { subst s'. unfold msgHandler. rewrite He.
    unfold try_catch, dispatch. rewrite bind_get_state, Hb.
    unfold handle_TRANSACTION. by rewrite (bind_returns _ _ _ _ _ Hc). }
  destruct (count_vote_quorum _ _ _ _ _ _ _ _ Hc)
    as (Hv & Hkeys & Hq & Hpk & _ & _).
  pose proof (count_vote_ledger m tx valid root (gossip sock m s)) as Hl.
  rewrite Hc in Hl. destruct Hl as (Hchain & Hacc & _).
  simpl in Hchain, Hacc, Hpk, Hv, Hq.
  split; [done|]. split; [done|].
  set (own := (transactionValid s1 v false (clock 0%nat)).1) in *.
  set (s2 := set_consensus
               (obj_set (publicKey s1) (ESelf v own) (consensus s1)) s1).
  destruct (commit_returns v keys s2) as (s3 & Hs3 & Hrec).
  { simpl. by rewrite Hacc, Hchain. }
  { simpl. apply Forall_app. split.
    - apply Forall_forall. intros k Hk. subst keys.
      destruct (decide (k = publicKey s1)) as [->|Hne].
      + by rewrite obj_get_set_eq.
      + rewrite obj_get_set_ne by done. by apply obj_get_key.
    - constructor; [|done]. by rewrite obj_get_set_eq. }
  assert (Ht : tally clock v keys s1 = closeout clock s3).
  { unfold tally. rewrite bind_get_state. cbv zeta.
    unfold mbind at 1, M_bind at 1. unfold modify at 1. cbv beta iota.
    rewrite bind_get_state. fold own. fold s2.
    unfold votes_at_tally in Hmaj. fold own in Hmaj.
    change (consensus s2)
      with (obj_set (publicKey s1) (ESelf v own) (consensus s1)).
    rewrite Hmaj. by rewrite (bind_returns _ _ _ _ _ Hs3). }
  rewrite Hs', Ht.
  destruct (closeout_ledger clock s3) as [-> _].
  rewrite Hrec. simpl. subst votes. by rewrite Hchain, Hpk.
Qed.

End Accept.

(** ** Sync, timeout and start *)

Section Events.
Context `{Primitives}.

(** A CHAIN message that is not addressed to the node, or that comes when
    no chain was asked for, is only gossiped. *)
Lemma unwanted_chain_ignored clock sock m transactions root s :
  envelope_rejected s m = false →
  m_body m = CHAIN transactions root →
  wantChain s = false ∨ m_for m ≠ Some (publicKey s) →
  msgHandler clock sock m s = gossip sock m s.
Proof.
  intros He Hb Hw. unfold msgHandler. rewrite He.
  unfold try_catch, dispatch. rewrite bind_get_state, Hb.
  unfold handle_CHAIN. rewrite bind_get_state.
  change (wantChain (gossip sock m s)) with (wantChain s).
  change (publicKey (gossip sock m s)) with (publicKey s).
  destruct Hw as [->|Hne]; [by rewrite orb_true_r|].
  by rewrite (bool_decide_eq_false_2 _ Hne).
Qed.

(** X18. An event keeps the chain it finds as a prefix of the chain, and
    removes no account, unless it is a CHAIN message addressed to the node
    while the node waits for a chain. *)
Theorem only_sync_rewrites e s :
  (∀ clock sock m transactions root,
     e = EMessage clock sock m →
     m_body m = CHAIN transactions root →
     wantChain s = false ∨ m_for m ≠ Some (publicKey s)) →
  chain_transactions s `prefix_of` chain_transactions (step e s)
  ∧ dom (chain_accounts s) ⊆ dom (chain_accounts (step e s)).
Proof.
  intros Hb.
  enough (Hm : ledger_monotone s (step e s)) by by destruct Hm as (?&?&_).
  destruct e as [sock|clock sock m|sock|t|clock id|clock];
    try (apply step_monotone; intros; discriminate).
  destruct (m_body m) as [|transactions root| | | | | |] eqn:E;
    try (apply step_monotone; intros; simplify_eq; congruence).
  unfold step. destruct (envelope_rejected s m) eqn:He.
  { unfold msgHandler. rewrite He. reflexivity. }
  rewrite (unwanted_chain_ignored _ _ _ transactions root); eauto.
  apply gossip_monotone.
Qed.

(** X19. When the vote timer fires in a state the node has reached, the vote
    is open and stays open: the callback closes the first socket of every
    validator of its snapshot that has no entry in [consensus], clears
    [consensus], sends the vote again in a TRANSACTION message that holds
    a Merkle root, and arms the next timer; the pending queue, the chain,
    the accounts and the Merkle tree are left as they are. *)
Theorem timeout_rebroadcasts clock tm s :
  reachable s →
  tm ∈ timers s →
  let s' := step (ETimeout clock (timer_id tm)) s in
  ∃ v root,
    vote s = Some v
    ∧ vote s' = Some v
    ∧ pendingTxs s' = pendingTxs s
    ∧ ledger_unchanged s s'
    ∧ consensus s' = []
    ∧ sockets s'
      = foldl (λ l k, close_by_key k l) (sockets s)
          (filter (λ k, k ∉ (consensus s).*1) (elements (lastValidators tm)))
    ∧ sent s'
      = sent s
        ++ [(SendTransaction (serialize v)
               (VBool (transactionValid s v false (clock 0%nat)).1)
               (Some root),
             s_id <$> filter (λ k, s_open k = true) (sockets s'))]
    ∧ timers s' = [mkTimer (nextTimer s) (validators s)]
    ∧ voteTimeout s' = Some (nextTimer s).
Proof.
  intros Hr Hin s'.
  destruct (reachable_timer_inv s Hr) as [Ht|(tm' & Ht & Hh & Hv)].
  { rewrite Ht in Hin. by apply not_elem_of_nil in Hin. }
  rewrite Ht in Hin. apply list_elem_of_singleton in Hin as ->.
  destruct (vote s) as [v|] eqn:Hvs; [|done].
  destruct (getRoot_total _ (reachable_tree_ok s Hr)) as [root Hroot].
  exists v, root. subst s'. unfold step. rewrite Ht. simpl.
  rewrite decide_True by done. simpl.
  unfold on_timeout, merkle, send, getVoteTimeout, modify, get_state, mbind,
    M_bind.
  simpl. rewrite Hvs. simpl. rewrite Hroot. simpl. rewrite Ht, filter_cons.
  rewrite decide_False by (intros Hne; by apply Hne). simpl.
  repeat split; try done.
Qed.

Lemma start_merkle_from_keeps recs : ∀ i,
  preserves (keeps (λ s, (chain_accounts s, chain_transactions s, sent s,
                          wantChain s, consensus s)))
    (start_merkle_from i recs).
Proof.
  induction recs as [|r rest IH]; intros i; simpl;
    repeat first [ apply IH | frame_step | progress unfold merkle_add ];
    done.
Qed.

(** X20. When no socket is open at the end of [start()] and the node has
    accounts, or an empty chain, the accounts and the chain are left as
    they are, nothing is sent, [wantChain] is not set, [consensus] is
    cleared and the Merkle tree only gains leaves. *)
Theorem start_without_peers clock s :
  existsb s_open (sockets s) = false →
  (0 <? length (chain_transactions s))%nat
  && (size (chain_accounts s) =? 0)%nat = false →
  let s' := step (EStarted clock) s in
  chain_accounts s' = chain_accounts s
  ∧ chain_transactions s' = chain_transactions s
  ∧ sent s' = sent s
  ∧ wantChain s' = wantChain s
  ∧ consensus s' = []
  ∧ tree_grows s s'.
Proof.
  intros Ho Hr s'.
  assert (Hs' : s' = (start_merkle_from 0 (chain_transactions s)
                        (set_consensus [] s)).1).
  { subst s'. unfold step, on_started.
    unfold mbind at 1, M_bind at 1. unfold modify at 1. cbv beta iota.
    rewrite bind_get_state. simpl. by rewrite Ho, Hr. }
  rewrite Hs'.
  pose proof (start_merkle_from_keeps (chain_transactions s) 0
                (set_consensus [] s)) as Hk.
  unfold keeps in Hk. simpl in Hk. simplify_eq.
  destruct (start_merkle_from_grows (chain_transactions s) 0
              (set_consensus [] s)) as [(_&_&_&Hg) _].
  done.
Qed.

End Events.

(** ** Votes and requests *)

Lemma obj_set_absent {A} k (v : A) o :
  obj_get k o = None → obj_set k v o = o ++ [(k, v)].
Proof.
  induction o as [|[k' v'] o IH]; simpl; [done|].
  destruct (String.eqb k k'); [done|]. intros Hn. by rewrite IH.
Qed.

Section Votes.
Context `{Primitives}.

(** X21. [case "TRANSACTION"] stores a vote only when the sender has stake,
    names the Merkle root of the node, votes on the open candidate (by
    hash) and has no vote stored yet; the vote is then appended under the
    key of the sender. Otherwise [consensus] is left as it is: the first
    vote of a key stands. *)
Theorem vote_stored_only_if m tx valid root s :
  let s1 := (count_vote m tx valid root s).1 in
  consensus s1 = consensus s
  ∨ (consensus s1 = consensus s ++ [(m_key m, EVote tx valid root)]
     ∧ obj_get (m_key m) (consensus s) = None
     ∧ isValidator s m = false
     ∧ getRoot (transactionMerkle s) = Returns (Some root)
     ∧ root ≠ ""
     ∧ ∃ v t', vote s = Some v ∧ deserialize tx = Some t'
               ∧ tx_hash v = tx_hash t').
Proof.
  intros s1. subst s1.
  unfold count_vote, merkle, mbind, M_bind, get_state, modify, throw, mret,
    M_ret.
  destruct (vote s) as [v|] eqn:Hv; [|by left].
  destruct (String.eqb root "") eqn:Hr; [by left|].
  destruct (getRoot (transactionMerkle s)) as [r|] eqn:Hg; [|by left].
  destruct (negb (bool_decide (r = Some root)) || isValidator s m) eqn:Hc;
    [by left|].
  apply orb_false_iff in Hc as [Hroot Hst].
  apply negb_false_iff, bool_decide_eq_true in Hroot as ->.
  destruct (obj_get (m_key m) (consensus s)) as [e|] eqn:Ho.
  { left. by case_match. }
  destruct (deserialize tx) as [t'|] eqn:Hd; [|by left].
  destruct (String.eqb (tx_hash v) (tx_hash t')) eqn:Hh.
  - right. apply String.eqb_eq in Hh. apply String.eqb_neq in Hr.
    split; [|by eauto 10].
    case_match; simpl; by apply obj_set_absent.
  - left. by case_match.
Qed.

(** X22. After a socket has closed the set of validators is empty, and the
    next TRANSACTION message of a staked sender that names the Merkle root
    of the node runs the tally of the open vote at once, however few votes
    [consensus] holds. *)
Theorem close_lowers_quorum sock clock sock' m tx valid root s v t' :
  vote s = Some v →
  getRoot (transactionMerkle s) = Returns (Some root) →
  root ≠ "" →
  isValidator s m = false →
  deserialize tx = Some t' →
  m_body m = TRANSACTION tx valid root →
  let s0 := step (EClose sock) s in
  envelope_rejected s0 m = false →
  validators s0 = ∅
  ∧ ∃ s1 keys,
      count_vote m tx valid root (gossip sock' m s0)
      = (s1, Returns (Some (v, keys)))
      ∧ msgHandler clock sock' m s0 = (tally clock v keys s1).1.
Proof.
  intros Hv Hg Hr Hst Hd Hb s0 He. split; [done|].
  assert (Hc : ∃ s1 keys,
             count_vote m tx valid root (gossip sock' m s0)
             = (s1, Returns (Some (v, keys)))).
  { set (sg := gossip sock' m s0).
    assert (Hm : merkle sg = (sg, Returns (Some root))).
    { unfold merkle.
      change (transactionMerkle sg) with (transactionMerkle s).
      by rewrite Hg. }
    unfold count_vote. rewrite bind_get_state.
    change (vote sg) with (vote s). rewrite Hv.
    apply String.eqb_neq in Hr as ->.
    rewrite (bind_returns _ _ _ _ _ Hm).
    change (isValidator sg m) with (isValidator s m). rewrite Hst.
    rewrite bool_decide_eq_true_2 by done. simpl. rewrite Hd.
    unfold mbind, M_bind, get_state, modify, mret, M_ret.
    change (consensus sg) with (consensus s).
    destruct (obj_get (m_key m) (consensus s));
      [|destruct (String.eqb (tx_hash v) (tx_hash t'))];
      simpl;
      change (set_size _) with (size (∅ : gset string));
      rewrite size_empty; simpl; by eauto. }
  destruct Hc as (s1 & keys & Hc). exists s1, keys. split; [done|].
  unfold msgHandler. rewrite He.
  unfold try_catch, dispatch. rewrite bind_get_state, Hb.
  unfold handle_TRANSACTION. by rewrite (bind_returns _ _ _ _ _ Hc).
Qed.

(** X23. A GET_CHAIN message that passes the guard is answered, whoever sent
    it, by one CHAIN message that holds the whole chain and the Merkle
    root and is addressed to the key of the sender; it is written to every
    open socket, and the node is otherwise as the gossip left it. *)
Theorem chain_served_to_anyone clock sock m s :
  reachable s →
  envelope_rejected s m = false →
  m_body m = GET_CHAIN →
  ∃ root,
    getRoot (transactionMerkle s) = Returns (Some root)
    ∧ msgHandler clock sock m s
      = set_sent
          (sent s
           ++ [(SendChain (chain_transactions s) (Some root) (m_key m),
                s_id <$> filter (λ k, s_open k = true)
                                (sockets (gossip sock m s)))])
          (gossip sock m s).
Proof.
  intros Hr He Hb.
  destruct (getRoot_total _ (reachable_tree_ok s Hr)) as [root Hroot].
  exists root. split; [done|].
  unfold msgHandler. rewrite He.
  unfold try_catch, dispatch. rewrite bind_get_state, Hb.
  unfold merkle, send, modify, mbind, M_bind.
  change (transactionMerkle (gossip sock m s)) with (transactionMerkle s).
  by rewrite Hroot.
Qed.

End Votes.

(** ** The node on concrete inputs *)

Section Concrete.
Import Sample.
#[local] Existing Instance prims.

(** The root after three leaves is the hash of the first pair: the third
    leaf waits on level 0, below the top-most level. *)
Example root_of_three_leaves :
  getRoot (build [ATx fundB; ATx stakeB; ATx fundA]) = Returns (Some rootNow).
Proof. vm_compute. reflexivity. Qed.

(** C1. The commit path and the replay disagree. Node "S", which has no
    account of its own, holds the accounts that the replay of its chain
    yields; "B" votes for the transfer [pay] and the slot commits it. The
    commit path skips the reward of the voter "S", who has no account, and
    increments the nonce of "A"; the replay of the extended chain from
    empty accounts throws at the reward of "S" and never reaches the
    nonce: it leaves "A" with nonce 0 where the commit left nonce 1. *)
Theorem commit_and_replay_disagree :
  chain_accounts voting
  = chain_accounts
      (createAccState clock0 (chain_transactions voting)
         (newP2P (chain_transactions voting) ∅ "S")).1
  ∧ chain_transactions committed
    = history
      ++ [mkRecord pay [("B", Some (VBool true)); ("S", Some (VBool true))]
                   "sha256(B:S:true:true)"]
  ∧ chain_accounts committed !! "A" = Some (mkAccount 800 0 1)
  ∧ chain_accounts replayed.1 !! "A" = Some (mkAccount 800 0 0)
  ∧ replayed.2 = Thrown.
Proof. vm_compute. repeat split; reflexivity. Qed.

(** C3, counterexample. The first record of [history] has
    [body == "GENESIS"] and lies in the genesis window, and its sender "F"
    is not ["GENESIS"]: the replay accepts it and debits "F" by the amount,
    from no account to a balance of [-2000000200]. *)
Lemma genesis_body_still_debits :
  tx_body fundB = "GENESIS"
  ∧ chain_accounts fresh !! "F" = None
  ∧ replay_gate fresh 1000 0 fundB = true
  ∧ chain_accounts (replay_record 1000 0 (mkRecord fundB [] "") fresh).1
      !! "F"
    = Some (mkAccount (- tx_amount fundB) 0 0).
Proof. vm_compute. repeat split; reflexivity. Qed.

(** [genesis_bypass] at the allocation [mint], replayed second on the
    node [fresh]. *)
Lemma genesis_bypass_witness :
  (length [mkRecord fundB [] ""] < 6)%nat
  ∧ tx_body mint = "GENESIS"
  ∧ replay_gate afterFirst 1000 1 mint = true
  ∧ genesis_balance (replay_record 1000 1 (mkRecord mint [] "") afterFirst).1
    = genesis_balance afterFirst.
Proof.
  destruct (genesis_bypass clock0 [mkRecord fundB [] ""]
              (mkRecord mint [] "") fresh afterFirst 1%nat)
    as (_ & _ & Hgate & Hfrom);
    [simpl; lia|reflexivity|vm_compute; reflexivity|].
  destruct (Hfrom eq_refl) as [_ Hbal].
  split; [simpl; lia|]. split; [reflexivity|]. split; [exact Hgate|].
  apply Hbal; [discriminate|]. simpl. apply not_elem_of_nil.
Defined.

(** C4. A slot opened by the local submit broadcasts no vote.
    [sendTransaction(pay)] runs on the idle node "S" with one socket open:
    the vote is set to [pay], and the only message sent is the
    NEW_TRANSACTION one; the TRANSACTION message that the handler of an
    inbound NEW_TRANSACTION broadcasts in the same transition is not
    sent. *)
Theorem submit_broadcasts_no_vote :
  vote idle = None
  ∧ vote (sendTransaction pay idle).1 = Some pay
  ∧ sent (sendTransaction pay idle).1
    = sent idle ++ [(SendNewTransaction (sample_serialize pay), [1%nat])].
Proof. vm_compute. repeat split; reflexivity. Qed.

(** [idle_to_voting] at the idle node and the submission of [pay]. *)
Lemma idle_to_voting_witness :
  vote (msgHandler clock0 1 newPay idle) = Some pay
  ∧ sent (msgHandler clock0 1 newPay idle)
    = sent idle
      ++ [(SendTransaction (sample_serialize pay) (VBool true) (Some rootNow),
           [1%nat])]
  ∧ vote (sendTransaction pay idle).1 = Some pay.
Proof.
  destruct (idle_to_voting clock0 1%nat newPay (sample_serialize pay) pay
              (Some rootNow) idle)
    as [(Hv1 & _ & Hs1 & _) (Hv2 & _)];
    [vm_compute; reflexivity..|].
  split; [exact Hv1|]. split; [|exact Hv2].
  rewrite Hs1. vm_compute. reflexivity.
Defined.

(** C5. The close-out is skipped when the accept path throws. [grant] is
    a transaction of the genesis window whose sender "X" has no account;
    it is the live vote of "S", [pay] waits in the pending queue and the
    vote timeout is armed. "B" votes [true], the node's own vote is [true]
    as well, so the tally accepts; the debit of "X" throws before the
    account is created, the handler's [catch] ends the turn, and the vote
    is still [grant], the timer still armed, [pay] still pending. *)
Theorem closeout_skipped_when_debit_throws :
  vote votingGrant = Some grant
  ∧ pendingTxs votingGrant = [pay]
  ∧ voteTimeout votingGrant = Some 0%nat
  ∧ timers votingGrant = [mkTimer 0 {["B"]}]
  ∧ consensus afterGrant
    = [("B", EVote (sample_serialize grant) (VBool true) rootNow);
       ("S", ESelf grant true)]
  ∧ vote afterGrant = Some grant
  ∧ pendingTxs afterGrant = [pay]
  ∧ timers afterGrant = [mkTimer 0 {["B"]}]
  ∧ sent afterGrant = sent votingGrant
  ∧ chain_transactions afterGrant = history.
Proof. vm_compute. repeat split; reflexivity. Qed.

(** [rejected_slot_leaves_ledger] at the refusal of [pay] by "B": one
    [false], one [true]. *)
Lemma rejected_slot_leaves_ledger_witness :
  majority (votes_at_tally clock0 pay tallying) = false
  ∧ ledger_unchanged voting (msgHandler clock0 1 refusalB voting).
Proof.
  split; [vm_compute; reflexivity|].
  apply (rejected_slot_leaves_ledger clock0 1%nat refusalB
           (sample_serialize pay) (VBool false) rootNow voting tallying pay
           ["B"]);
    vm_compute; reflexivity.
Defined.



(** [single_slot] at the node voting on [pay], with [grant] arriving in a
    message and [stakeB] by local submit. *)
Lemma single_slot_witness :
  vote voting = Some pay
  ∧ arrive_all voting [Inbound clock0 1 newGrant; Local stakeB]
    = Some [grant; stakeB]
  ∧ vote (foldl submit voting [Inbound clock0 1 newGrant; Local stakeB])
    = Some pay
  ∧ pendingTxs (foldl submit voting [Inbound clock0 1 newGrant; Local stakeB])
    = pendingTxs voting ++ [grant; stakeB].
Proof.
  destruct (single_slot [Inbound clock0 1%nat newGrant; Local stakeB]
              voting pay [grant; stakeB])
    as (Hv & Hp & _); [vm_compute; reflexivity..|].
  split; [vm_compute; reflexivity|]. split; [vm_compute; reflexivity|].
  split; [exact Hv|exact Hp].
Defined.


(** [self_never_validator] at the node [idle], reached in three events. *)
Lemma self_never_validator_witness :
  reachable idle ∧ publicKey idle ∉ validators idle.
Proof.
  assert (Hr : reachable idle).
  { unfold idle. repeat apply reachable_step. apply reachable_new. }
  split; [exact Hr|]. apply (self_never_validator idle Hr).
Defined.

End Concrete.
(** ** The further properties on concrete inputs *)

Section Runs.
Import Sample.
#[local] Existing Instance prims.

Lemma reachable_idle : reachable idle.
Proof. unfold idle. repeat apply reachable_step. apply reachable_new. Qed.

Lemma reachable_voting : reachable voting.
Proof. unfold voting. apply reachable_step, reachable_idle. Qed.

Lemma reachable_queued : reachable queued.
Proof. unfold queued. apply reachable_step, reachable_voting. Qed.

(** [root_is_perfect_prefix] at three leaves: the root covers the first
    two. *)
Lemma root_is_perfect_prefix_witness :
  (0 < merkle_size (build [ATx fundB; ATx stakeB; ATx fundA]))%nat
  ∧ getRoot (build [ATx fundB; ATx stakeB; ATx fundA])
    = Returns (Some (perfect_root 1 [tx_hash fundB; tx_hash stakeB])).
Proof.
  split; [vm_compute; lia|].
  apply (root_is_perfect_prefix [ATx fundB; ATx stakeB; ATx fundA]).
  vm_compute. lia.
Defined.

(** [replay_never_overdraws] at the transfer [pay] on [restarted]. *)
Lemma replay_never_overdraws_witness :
  solvent restarted
  ∧ solvent (createAccState clock0 [mkRecord pay [] ""] restarted).1.
Proof.
  assert (Hs : solvent restarted).
  { apply map_Forall_singleton. simpl. lia. }
  split; [exact Hs|].
  apply (replay_never_overdraws clock0 [mkRecord pay [] ""] restarted);
    [|exact Hs].
  repeat constructor. simpl. discriminate.
Defined.

(** [transactionValid_characterised] at [pay] on the idle node. *)
Lemma transactionValid_characterised_witness :
  (transactionValid idle pay true 1000).1 = true
  ∧ (transactionValid idle pay true 1000).2 = [].
Proof.
  destruct (transactionValid_characterised idle pay true 1000)
    as (Hiff & Hnone & _); [vm_compute; reflexivity|].
  assert (Hv : (transactionValid idle pay true 1000).1 = true).
  { apply Hiff. vm_compute. repeat split; try congruence.
    exists (mkAccount 1000 0 0). repeat split; congruence. }
  split; [exact Hv|exact (Hnone Hv)].
Defined.

(** [validatorsRoot_ignores_assignment] at two votes swapped. *)
Lemma validatorsRoot_ignores_assignment_witness :
  votesTF ≠ votesFT ∧ hash_validators votesTF = hash_validators votesFT.
Proof.
  split; [discriminate|].
  apply (validatorsRoot_ignores_assignment votesTF votesFT).
  - reflexivity.
  - apply Permutation_swap.
Defined.

(** [merkle_returns_root] at the node voting on [pay]. *)
Lemma merkle_returns_root_witness :
  reachable voting ∧ ∃ root, merkle voting = (voting, Returns (Some root)).
Proof.
  split; [exact reachable_voting|].
  apply (merkle_returns_root voting reachable_voting).
Defined.

(** [only_sync_rewrites] at the chain of "B" sent to the idle node, which
    asked for none. *)
Lemma only_sync_rewrites_witness :
  wantChain idle = false
  ∧ chain_transactions idle
      `prefix_of` chain_transactions (step (EMessage clock0 1 chainB) idle)
  ∧ dom (chain_accounts idle)
      ⊆ dom (chain_accounts (step (EMessage clock0 1 chainB) idle)).
Proof.
  split; [reflexivity|].
  apply (only_sync_rewrites (EMessage clock0 1%nat chainB) idle).
  intros. left. reflexivity.
Defined.

(** [buf_at_most_ten] at the node voting on [pay]. *)
Lemma buf_at_most_ten_witness :
  reachable voting ∧ (length (buf voting) ≤ 10)%nat.
Proof.
  split; [exact reachable_voting|].
  apply (buf_at_most_ten voting reachable_voting).
Defined.

(** [replay_dropped] at the announcement of "B", which comes again after
    the submission of [pay]. *)
Lemma replay_dropped_witness :
  envelope_rejected (step (EConnect 1) (step (EStarted clock0) fresh)) helloB
  = false
  ∧ msgHandler clock0 1 helloB
      (run [EMessage clock0 1 newPay]
         (msgHandler clock0 1 helloB
            (step (EConnect 1) (step (EStarted clock0) fresh))))
    = run [EMessage clock0 1 newPay]
        (msgHandler clock0 1 helloB
           (step (EConnect 1) (step (EStarted clock0) fresh))).
Proof.
  split; [vm_compute; reflexivity|].
  apply (replay_dropped clock0 1%nat helloB
           (step (EConnect 1%nat) (step (EStarted clock0) fresh))
           [EMessage clock0 1%nat newPay] clock0 1%nat);
    [vm_compute; reflexivity|simpl; lia].
Defined.

(** [flood_fill] at the submission of [pay], which came on the only
    socket. *)
Lemma flood_fill_witness :
  envelope_rejected idle newPay = false
  ∧ forwarded voting = forwarded idle
  ∧ sockets voting = [mkSocket 1 true (Some "A")].
Proof.
  split; [vm_compute; reflexivity|].
  destruct (flood_fill clock0 1%nat newPay idle) as [Hf Hs];
    [vm_compute; reflexivity|].
  change voting with (msgHandler clock0 1%nat newPay idle).
  split; [rewrite Hf; vm_compute; reflexivity|].
  rewrite Hs. vm_compute. reflexivity.
Defined.

(** [unstaked_sender_ignored] at the announcement of "A". *)
Lemma unstaked_sender_ignored_witness :
  isValidator idle helloA = true
  ∧ msgHandler clock0 1 helloA idle = gossip 1 helloA idle.
Proof.
  split; [vm_compute; reflexivity|].
  apply (unstaked_sender_ignored clock0 1%nat helloA idle);
    [vm_compute; reflexivity|vm_compute; reflexivity|].
  right. left. by exists "A".
Defined.

(** [accepted_slot_appends_record] at the vote of "B" for [pay]. *)
Lemma accepted_slot_appends_record_witness :
  majority (votes_at_tally clock0 pay tallyingPay) = true
  ∧ chain_transactions committed
    = chain_transactions voting
      ++ [mkRecord pay [("B", Some (VBool true)); ("S", Some (VBool true))]
            (hash_validators
               [("B", Some (VBool true)); ("S", Some (VBool true))])].
Proof.
  split; [vm_compute; reflexivity|].
  destruct (accepted_slot_appends_record clock0 1%nat voteB
              (sample_serialize pay) (VBool true) rootNow voting tallyingPay
              pay ["B"]) as (_ & _ & Hrec);
    [vm_compute; reflexivity..| |].
  { left. vm_compute. by eexists. }
  change committed with (msgHandler clock0 1%nat voteB voting).
  rewrite Hrec. vm_compute. reflexivity.
Defined.

(** [one_vote_timer] at the node voting on [pay]. *)
Lemma one_vote_timer_witness :
  reachable voting
  ∧ timers voting = [payTimer]
  ∧ voteTimeout voting = Some (timer_id payTimer)
  ∧ vote voting ≠ None.
Proof.
  split; [exact reachable_voting|].
  destruct (one_vote_timer voting reachable_voting)
    as [Hno|(tm & Ht & Hh & Hv)]; [vm_compute in Hno; discriminate|].
  assert (Heq : timers voting = [payTimer]) by (vm_compute; reflexivity).
  rewrite Heq in Ht. injection Ht as <-.
  split; [exact Heq|]. split; [exact Hh|exact Hv].
Defined.

(** [promoted_vote_has_no_timer] at the vote of "B" for [pay] while
    [grant] is queued. *)
Lemma promoted_vote_has_no_timer_witness :
  reachable queued
  ∧ pendingTxs queued = [grant]
  ∧ vote (msgHandler clock0 1 voteB queued) = Some grant
  ∧ timers (msgHandler clock0 1 voteB queued) = [].
Proof.
  split; [exact reachable_queued|]. split; [vm_compute; reflexivity|].
  destruct (promoted_vote_has_no_timer clock0 1%nat voteB
              (sample_serialize pay) (VBool true) rootNow queued
              tallyingQueued pay ["B"] grant [] reachable_queued)
    as (Hv & _ & Ht & _); [vm_compute; reflexivity..|].
  split; [exact Hv|exact Ht].
Defined.

(** [timeout_rebroadcasts] at the timer of the vote on [pay]. *)
Lemma timeout_rebroadcasts_witness :
  reachable voting
  ∧ payTimer ∈ timers voting
  ∧ vote (step (ETimeout clock0 0) voting) = Some pay
  ∧ timers (step (ETimeout clock0 0) voting) = [mkTimer 1 {["B"]}].
Proof.
  split; [exact reachable_voting|].
  assert (Hin : payTimer ∈ timers voting).
  { vm_compute. constructor. }
  split; [exact Hin|].
  destruct (timeout_rebroadcasts clock0 payTimer voting reachable_voting Hin)
    as (v & root & Hv & Hv' & _ & _ & _ & _ & _ & Ht & _).
  assert (Hp : vote voting = Some pay) by (vm_compute; reflexivity).
  rewrite Hp in Hv. injection Hv as <-.
  split; [exact Hv'|].
  change (step (ETimeout clock0 0) voting)
    with (step (ETimeout clock0 (timer_id payTimer)) voting).
  rewrite Ht. vm_compute. reflexivity.
Defined.

(** [start_without_peers] at the node [restarted]. *)
Lemma start_without_peers_witness :
  existsb s_open (sockets restarted) = false
  ∧ chain_accounts (step (EStarted clock0) restarted)
    = chain_accounts restarted
  ∧ chain_transactions (step (EStarted clock0) restarted) = history.
Proof.
  split; [reflexivity|].
  destruct (start_without_peers clock0 restarted) as (Ha & Hc & _);
    [reflexivity|vm_compute; reflexivity|].
  split; [exact Ha|exact Hc].
Defined.

(** [close_lowers_quorum] at the node voting on [pay]: a socket closes,
    and the vote of "B" runs the tally. *)
Lemma close_lowers_quorum_witness :
  validators voting = {["B"]}
  ∧ validators (step (EClose 2) voting) = ∅
  ∧ ∃ s1 keys,
      count_vote voteB (sample_serialize pay) (VBool true) rootNow
        (gossip 1 voteB (step (EClose 2) voting))
      = (s1, Returns (Some (pay, keys)))
      ∧ msgHandler clock0 1 voteB (step (EClose 2) voting)
        = (tally clock0 pay keys s1).1.
Proof.
  split; [vm_compute; reflexivity|].
  apply (close_lowers_quorum 2%nat clock0 1%nat voteB (sample_serialize pay)
           (VBool true) rootNow voting pay pay);
    first [vm_compute; reflexivity|discriminate].
Defined.

(** [chain_served_to_anyone] at the request of "A", who holds no stake. *)
Lemma chain_served_to_anyone_witness :
  reachable idle
  ∧ isValidator idle askA = true
  ∧ ∃ root,
      getRoot (transactionMerkle idle) = Returns (Some root)
      ∧ msgHandler clock0 1 askA idle
        = set_sent
            (sent idle
             ++ [(SendChain (chain_transactions idle) (Some root) (m_key askA),
                  s_id <$> filter (λ k, s_open k = true)
                                  (sockets (gossip 1 askA idle)))])
            (gossip 1 askA idle).
Proof.
  split; [exact reachable_idle|]. split; [vm_compute; reflexivity|].
  apply (chain_served_to_anyone clock0 1%nat askA idle reachable_idle);
    vm_compute; reflexivity.
Defined.

End Runs.
